(** * tt: the command-line driver of the typing test (tt.go)

    A shallow embedding of [main], [exit], [showReport] and [readConfig]
    of tt.go, together with the pieces of Go's runtime and standard
    library that the driver relies on (64-bit [int] arithmetic, IEEE-754
    [float64] arithmetic, [fmt] verbs, a few [strings] functions).

    Conventions.
    - Go's [int] is the 64-bit two's complement integer of the usual
      targets (amd64, arm64); it is a [Z] with the wrap-around written out.
    - Go's [float64] is Rocq's primitive binary64 [float]; the operations
      are the IEEE ones, evaluated by the kernel.
    - Byte strings read from files or pipes, and the segments handed to
      the engine, are [list ascii]; names, map keys and printed lines are
      [string].
    - The terminal, the typing engine ([Typer.Start]) and the report
      screen's key events are the environment: a run of the driver is
      replayed against a script of engine outcomes and key events, and
      yields the trace of what the driver did. *)

From Stdlib Require Import ZArith Lia Bool List Ascii String Floats DecimalString.
From stdpp Require Import base option list strings gmap.

Local Open Scope Z_scope.

(** ** Go's [int] *)

Module GoInt.

Definition min_int : Z := - 2 ^ 63.
Definition max_int : Z := 2 ^ 63 - 1.

Definition in_range (z : Z) : bool := (min_int <=? z) && (z <=? max_int).

(** Two's complement wrap-around of a mathematical result. *)
Definition wrap (z : Z) : Z := (z + 2 ^ 63) mod 2 ^ 64 - 2 ^ 63.

Definition add (a b : Z) : Z := wrap (a + b).
Definition mul (a b : Z) : Z := wrap (a * b).
(** [a / b] truncates toward zero. *)
Definition quot (a b : Z) : Z := wrap (Z.quot a b).

End GoInt.

(** ** Go's [float64] *)

Module GoFloat.

(** [float64(i)] for an integer [i]: the nearest binary64 value, ties to
    even. *)
Definition of_int (z : Z) : float :=
  SF2Prim (binary_normalize prec emax z 0 false).

(** The integer part of a finite float, toward zero; [None] for NaN and
    the infinities. *)
Definition trunc (f : float) : option Z :=
  match Prim2SF f with
  | S754_zero _ => Some 0
  | S754_finite s m e =>
      let a := Z.shiftl (Z.pos m) e in
      Some (if s then - a else a)
  | S754_infinity _ => None
  | S754_nan => None
  end.

(** [int(f)]: the fraction is discarded; when the value does not fit
    (or is NaN) the conversion succeeds with an implementation-dependent
    [int], here [undef f] (wrapped, as any machine integer). *)
Definition to_int (undef : float -> Z) (f : float) : Z :=
  match trunc f with
  | Some z => if GoInt.in_range z then z else GoInt.wrap (undef f)
  | None => GoInt.wrap (undef f)
  end.

Definition is_finite (f : float) : bool :=
  match Prim2SF f with
  | S754_zero _ | S754_finite _ _ _ => true
  | S754_infinity _ | S754_nan => false
  end.

End GoFloat.

(** ** The [fmt] verbs used by the driver *)

Module Fmt.

Local Open Scope string_scope.

Definition newline : string := String (ascii_of_nat 10) EmptyString.

(** [%d] *)
Definition d (z : Z) : string := NilZero.string_of_int (Z.to_int z).

Definition digit (z : Z) : ascii := ascii_of_nat (48 + Z.to_nat z).

(** [num / den] rounded to the nearest integer, ties to even
    ([0 <= num], [0 < den]). *)
Definition round_half_even (num den : Z) : Z :=
  let q := (num / den)%Z in
  match (2 * (num mod den) ?= den)%Z with
  | Lt => q
  | Gt => (q + 1)%Z
  | Eq => if Z.even q then q else (q + 1)%Z
  end.

(** The magnitude [num / den] in fixed notation with two decimals. *)
Definition fixed2 (neg : bool) (num den : Z) : string :=
  let n := round_half_even (100 * num) den in
  (if neg then "-" else "") ++ d (n / 100) ++ "."
    ++ String (digit ((n / 10) mod 10)) (String (digit (n mod 10)) "").

(** [%.2f]: the exact binary value, correctly rounded to two decimals;
    NaN and the infinities are spelled out. *)
Definition f2 (f : float) : string :=
  match Prim2SF f with
  | S754_zero s => fixed2 s 0 1
  | S754_finite s m e =>
      if (0 <=? e)%Z then fixed2 s (Z.pos m * 2 ^ e) 1
      else fixed2 s (Z.pos m) (2 ^ (- e))
  | S754_infinity s => if s then "-Inf" else "+Inf"
  | S754_nan => "NaN"
  end.

End Fmt.

(** ** The [strings], [bytes] and [regexp] calls used by the driver

    Only the instances that occur in tt.go: the separators and cut sets
    are one byte long, except for the paragraph separator, which is two. *)

Module GoStrings.

Abbreviation text := (list ascii).

Definition nl : ascii := ascii_of_nat 10.
Definition cr : ascii := ascii_of_nat 13.
Definition sp : ascii := ascii_of_nat 32.
Definition colon : ascii := ascii_of_nat 58.

(** [strings.TrimLeft(s, c)], [strings.TrimRight(s, c)] and
    [strings.Trim(s, c)] for a cut set of one byte. *)
Fixpoint trim_left (c : ascii) (s : text) : text :=
  match s with
  | x :: s' => if decide (x = c) then trim_left c s' else s
  | [] => []
  end.

Definition trim_right (c : ascii) (s : text) : text :=
  rev (trim_left c (rev s)).

Definition trim (c : ascii) (s : text) : text :=
  trim_right c (trim_left c s).

(** [strings.Replace(s, old, new, -1)] for [old] of one byte. *)
Definition replace (old : ascii) (new : text) (s : text) : text :=
  flat_map (fun x => if decide (x = old) then new else [x]) s.

(** Prepends a byte to the first piece of a split. *)
Definition push (x : ascii) (ps : list text) : list text :=
  match ps with
  | p :: ps' => (x :: p) :: ps'
  | [] => [[x]]
  end.

(** [strings.Split(s, sep)] / [bytes.Split(s, sep)] for [sep] of one
    byte. *)
Fixpoint split (sep : ascii) (s : text) : list text :=
  match s with
  | [] => [[]]
  | x :: s' =>
      if decide (x = sep) then [] :: split sep s' else push x (split sep s')
  end.

(** [strings.Split(s, sep)] for the two-byte separator [a b]: the
    occurrences are found left to right and do not overlap. *)
Fixpoint split2 (a b : ascii) (s : text) : list text :=
  match s with
  | [] => [[]]
  | x :: s1 =>
      match s1 with
      | y :: s2 =>
          if decide (x = a ∧ y = b) then [] :: split2 a b s2
          else push x (split2 a b s1)
      | [] => [[x]]
      end
  end.

(** [strings.SplitN(s, sep, 2)] for [sep] of one byte: [None] when the
    result has one element (no separator in [s]), otherwise the two
    elements. *)
Fixpoint split_n2 (sep : ascii) (s : text) : option (text * text) :=
  match s with
  | [] => None
  | x :: s' =>
      if decide (x = sep) then Some ([], s')
      else match split_n2 sep s' with
           | Some (k, v) => Some (x :: k, v)
           | None => None
           end
  end.

(** [regexp.MustCompile("\n\n+").ReplaceAllString(s, "\n\n")]: the
    leftmost match starts at the first two consecutive newlines, the
    greedy [+] consumes the rest of the run, and the scan resumes after
    the match. [in_match] holds while the run of a match is consumed. *)
Fixpoint collapse_from (in_match : bool) (s : text) : text :=
  match s with
  | [] => []
  | x :: s1 =>
      if in_match then
        if decide (x = nl) then collapse_from true s1
        else x :: collapse_from false s1
      else
        match s1 with
        | y :: s2 =>
            if decide (x = nl ∧ y = nl) then nl :: nl :: collapse_from true s2
            else x :: collapse_from false s1
        | [] => [x]
        end
  end.

Definition collapse_blank_lines (s : text) : text := collapse_from false s.

End GoStrings.

Import GoStrings.
(** ** Keys and events of the terminal library *)

(** [tcell.Key] values the driver compares with. *)
Definition KeyCtrlC : Z := 3.
Definition KeyEscape : Z := 27.

(** What [scr.PollEvent()] returns: a key event, or some other event
    (resize, mouse, ...), for which the type assertion fails. *)
Inductive event :=
| EventKey (key : Z)
| EventOther.

(** ** The driver's data *)

(** The tuple returned by [typer.Start]. *)
Record start_result := {
  nerrs : Z;
  ncorrect : Z;
  elapsed : Z;          (* time.Duration, in nanoseconds *)
  exitKey : Z }.

Record result := {
  wpm : Z;
  cpm : Z;
  accuracy : float }.

(** The command line, as the [flag] package sees it: a value flag is
    absent or carries its value, a boolean flag is given or not. *)
Record cli := {
  opt_n : option Z;
  opt_w : option Z;
  opt_t : option Z;
  opt_noskip : bool;
  opt_csv : bool;
  opt_raw : bool;
  opt_o : bool;
  opt_theme : option string;
  opt_list : option string }.

(** The flag variables after [flag.Parse()], with the defaults given at
    their declaration. *)
Record flags := {
  n : Z;
  wrapSz : Z;
  timeout : Z;
  noSkip : bool;
  csvMode : bool;
  rawMode : bool;
  oneShotMode : bool;
  themeName : string;
  listFlag : string }.

Definition parse (c : cli) : flags := {|
  n := default 50 (opt_n c);
  wrapSz := default 80 (opt_w c);
  timeout := default (-1) (opt_t c);
  noSkip := opt_noskip c;
  csvMode := opt_csv c;
  rawMode := opt_raw c;
  oneShotMode := opt_o c;
  themeName := default ""%string (opt_theme c);
  listFlag := default ""%string (opt_list c) |}.

(** ** [readConfig] *)

(** One line of ~/.ttrc: [key:value], the value trimmed of spaces. *)
Definition config_line (cfg : gmap string string) (ln : text)
  : gmap string string :=
  match split_n2 colon ln with
  | Some (k, v) =>
      <[string_of_list_ascii k := string_of_list_ascii (trim sp v)]> cfg
  | None => cfg
  end.

(** [file] is the content of ~/.ttrc, [None] when it cannot be read. *)
Definition readConfig (file : option text) : gmap string string :=
  match file with
  | Some b => foldl config_line ∅ (split nl b)
  | None => ∅
  end.

(** ** The driver *)

Section Tt.

(** The terminal library's colour type and [newTcellColor] (themes.go),
    which parses a colour specification. *)
Variable Color : Type.
Variable newTcellColor : string -> Color.

(** The table of built-in themes (themes.go): theme name to colour key
    to colour specification. *)
Variable themes : gmap string (gmap string string).

(** [wordWrap(s, n)] and [randomText(n, wrapSz)] (their files are not
    part of the sources). [randomText] draws from the random generator:
    its first argument here is the number of texts drawn before. *)
Variable wordWrap : text -> Z -> text.
Variable randomText : nat -> Z -> Z -> text.

(** The implementation-dependent result of [int(f)] when [f] does not
    fit an [int]. *)
Variable int_overflow : float -> Z.

(** *** Colours *)

Record colors := {
  bgcol : Color;
  fgcol : Color;
  hicol : Color;
  hicol2 : Color;
  hicol3 : Color;
  errcol : Color }.

(** [m[k]] on a [map[string]string]: the empty string when [k] is
    missing. *)
Definition index (m : gmap string string) (k : string) : string :=
  default ""%string (m !! k).

Definition theme_colors (theme : gmap string string) : colors := {|
  bgcol := newTcellColor (index theme "bgcol");
  fgcol := newTcellColor (index theme "fgcol");
  hicol := newTcellColor (index theme "hicol");
  hicol2 := newTcellColor (index theme "hicol2");
  hicol3 := newTcellColor (index theme "hicol3");
  errcol := newTcellColor (index theme "errcol") |}.

(** [if c, ok := cfg[key]; ok { col = newTcellColor(c) }] *)
Definition override (cfg : gmap string string) (key : string) (col : Color)
  : Color :=
  match cfg !! key with
  | Some c => newTcellColor c
  | None => col
  end.

(** The base theme when no theme is named on the command line. *)
Definition base_theme (cfg : gmap string string) : gmap string string :=
  let theme := default ∅ (themes !! "default"%string) in
  match cfg !! "theme"%string with
  | Some c =>
      match themes !! c with
      | Some v => v
      | None => theme
      end
  | None => theme
  end.

(** Lines 155-205 of [main]: the six colours, or [None] when the theme
    named on the command line does not exist (error, exit status 1). *)
Definition resolve_colors (cfg : gmap string string) (themeName : string)
  : option colors :=
  if decide (themeName ≠ ""%string) then
    match themes !! themeName with
    | None => None
    | Some theme => Some (theme_colors theme)
    end
  else
    let cs := theme_colors (base_theme cfg) in
    Some {|
      bgcol := override cfg "bgcol" (bgcol cs);
      fgcol := override cfg "fgcol" (fgcol cs);
      hicol := override cfg "hicol" (hicol cs);
      hicol2 := override cfg "hicol2" (hicol2 cs);
      hicol3 := override cfg "hicol3" (hicol3 cs);
      errcol := override cfg "errcol" (errcol cs) |}.

Definition invalid_theme (themeName : string) : string :=
  ("ERROR: " ++ themeName
     ++ " is not a valid theme (see -list themes for a list of valid options)."
     ++ Fmt.newline)%string.

(** *** The test's content *)

(** Lines 139-141: the paragraphs of the piped text. *)
Definition paragraphs (b : text) : list text :=
  let s := replace cr [] b in
  let s := collapse_blank_lines s in
  split2 nl nl (trim nl s).

(** Line 144: what becomes of one paragraph. *)
Definition reflow (wrapSz : Z) (p : text) : text :=
  replace nl [sp; nl] (wordWrap (trim sp p) wrapSz).

Inductive stdin_state :=
| Terminal                  (* stdin is a terminal *)
| Piped (b : text)          (* all of stdin was read *)
| PipedError.               (* ioutil.ReadAll failed *)

(** Lines 130-151: [contentFn], as a function of the number of calls
    made before; [None] when reading stdin fails (panic). *)
Definition contentFn (fl : flags) (input : stdin_state)
  : option (nat -> list text) :=
  match input with
  | Piped b =>
      if rawMode fl then Some (fun _ => [b])
      else
        let content := map (reflow (wrapSz fl)) (paragraphs b) in
        Some (fun _ => content)
  | PipedError => None
  | Terminal => Some (fun i => [randomText i (n fl) (wrapSz fl)])
  end.

(** *** The engine, as far as the driver sees it *)

Record typer := {
  palette : colors;
  SkipWord : bool }.

(** Modelled from the spec: [NewTyper] (typer.go is not part of the
    sources). The spec's configuration contract: [SkipWord] is a
    boolean whose default is true. *)
Definition NewTyper (fg bg hi hi2 hi3 err : Color) : typer := {|
  palette := {| bgcol := bg; fgcol := fg; hicol := hi;
                hicol2 := hi2; hicol3 := hi3; errcol := err |};
  SkipWord := true |}.

(** Modelled from the spec: the elapsed time [typer.Start] reports for
    a run that began at clock reading [started] and finished at
    [finished] (typer.go is not part of the sources). The spec: the
    engine refuses to finish a run with zero elapsed time; the minimum
    duration of an attempt is one clock tick. *)
Definition run_duration (started finished : Z) : Z :=
  Z.max 1 (finished - started).

(** Modelled from the spec: the tuple of a run that ends naturally or
    by timeout, with the totals accumulated up to then. *)
Definition finish_run (nerrs ncorrect started finished : Z) : start_result := {|
  nerrs := nerrs;
  ncorrect := ncorrect;
  elapsed := run_duration started finished;
  exitKey := 0 |}.

(** *** Traces *)

(** What the driver does, in order. *)
Inductive obs :=
| ObsThemes (names : gset string)     (* the theme names, one per line *)
| ObsStderr (msg : string)
| ObsStdout (line : string)
| ObsStart (ty : typer) (content : list text) (timeout : Z)
| ObsReport (cpm wpm : Z) (accuracy : float)
| ObsFini.

Inductive ending :=
| Exited (code : Z)        (* os.Exit(code) *)
| Panicked
| Waiting.                 (* blocked on the engine or on a key event *)

Record run := {
  trace : list obs;
  results : list result;   (* the global [results] at the end *)
  status : ending }.

Definition emit (o : obs) (r : run) : run :=
  {| trace := o :: trace r; results := results r; status := status r |}.

Definition stop (rs : list result) (st : ending) : run :=
  {| trace := []; results := rs; status := st |}.

(** *** [exit], [showReport] and the loop of [main] *)

Section Loop.

Variable fl : flags.
Variable ty : typer.
Variable content : nat -> list text.
Variable tmo : Z.

Definition csv_line (r : result) : string :=
  (Fmt.d (wpm r) ++ "," ++ Fmt.d (cpm r) ++ "," ++ Fmt.f2 (accuracy r)
     ++ Fmt.newline)%string.

Definition exit (rs : list result) : run := {|
  trace := ObsFini ::
           (if csvMode fl then map (fun r => ObsStdout (csv_line r)) rs
            else []);
  results := rs;
  status := Exited 0 |}.

(** The text [showReport] draws. *)
Definition report (cpm wpm : Z) (accuracy : float) : string :=
  ("WPM: " ++ Fmt.d wpm ++ Fmt.newline ++ "CPM: " ++ Fmt.d cpm
     ++ Fmt.newline ++ "Accuracy: " ++ Fmt.f2 accuracy ++ "%")%string.

(** How the polling loop of [showReport] ends. *)
Inductive report_end :=
| ReportEscape (rest : list event)   (* returns to [main] *)
| ReportCtrlC                        (* calls [exit] *)
| ReportWaiting.                     (* no more events: still polling *)

Fixpoint showReport (evs : list event) : report_end :=
  match evs with
  | [] => ReportWaiting
  | EventKey key :: rest =>
      if decide (key = KeyEscape) then ReportEscape rest
      else if decide (key = KeyCtrlC) then ReportCtrlC
      else showReport rest
  | EventOther :: rest => showReport rest
  end.

(** Lines 224-241. [rs] is the global [results], [calls] the number of
    iterations made so far, [starts] what the coming calls of
    [typer.Start] return, [evs] the events the report screens poll. *)
Fixpoint main_loop (rs : list result) (calls : nat)
    (starts : list start_result) (evs : list event) : run :=
  emit (ObsStart ty (content calls) tmo)
    match starts with
    | [] => stop rs Waiting
    | r :: starts' =>
        if decide (exitKey r = 0) then
          let cpm :=
            GoFloat.to_int int_overflow
              (GoFloat.of_int (ncorrect r)
                 / (GoFloat.of_int (elapsed r) / 60e9))%float in
          let wpm := GoInt.quot cpm 5 in
          let accuracy :=
            (GoFloat.of_int (ncorrect r)
               / GoFloat.of_int (GoInt.add (nerrs r) (ncorrect r))
               * 100)%float in
          let rs' := rs ++ [ {| wpm := wpm; cpm := cpm; accuracy := accuracy |} ] in
          if oneShotMode fl then exit rs'
          else
            emit (ObsReport cpm wpm accuracy)
              match showReport evs with
              | ReportEscape evs' => main_loop rs' (S calls) starts' evs'
              | ReportCtrlC => exit rs'
              | ReportWaiting => stop rs' Waiting
              end
        else if decide (exitKey r = KeyCtrlC) then exit rs
        else main_loop rs (S calls) starts' evs
    end.

End Loop.

(** *** [main] *)

Record env := {
  stdin : stdin_state;
  ttrc : option text;           (* the content of ~/.ttrc, if readable *)
  screen_ok : bool;             (* tcell.NewScreen and scr.Init succeed *)
  starts : list start_result;   (* what the calls of typer.Start return *)
  events : list event }.        (* what the report screens poll *)

(** Lines 220-222. *)
Definition start_timeout (timeout : Z) : Z :=
  if decide (timeout ≠ -1) then GoInt.mul timeout 1000000000 else timeout.

Definition main (c : cli) (e : env) : run :=
  let fl := parse c in
  if decide (listFlag fl = "themes"%string) then
    emit (ObsThemes (dom themes)) (stop [] (Exited 0))
  else
    match contentFn fl (stdin e) with
    | None => stop [] Panicked
    | Some content =>
        let cfg := readConfig (ttrc e) in
        match resolve_colors cfg (themeName fl) with
        | None =>
            emit (ObsStderr (invalid_theme (themeName fl))) (stop [] (Exited 1))
        | Some cs =>
            if screen_ok e then
              let ty :=
                NewTyper (fgcol cs) (bgcol cs) (hicol cs) (hicol2 cs)
                  (hicol3 cs) (errcol cs) in
              let ty :=
                if noSkip fl then {| palette := palette ty; SkipWord := false |}
                else ty in
              main_loop fl ty content (start_timeout (timeout fl)) []
                0%nat (starts e) (events e)
            else stop [] Panicked
        end
    end.

End Tt.

Arguments ObsThemes {Color}.
Arguments ObsStderr {Color}.
Arguments ObsStdout {Color}.
Arguments ObsStart {Color}.
Arguments ObsReport {Color}.
Arguments ObsFini {Color}.
Arguments stop {Color}.
Arguments emit {Color}.
Arguments exit {Color}.
Arguments main_loop {Color}.
Arguments main {Color}.
Arguments resolve_colors {Color}.
Arguments theme_colors {Color}.
Arguments base_theme : clear implicits.
Arguments override {Color}.
Arguments NewTyper {Color}.
Arguments trace {Color}.
Arguments results {Color}.
Arguments status {Color}.
Arguments SkipWord {Color}.
Arguments palette {Color}.


(** * Notions used by the properties *)

(** ** The statistics of a run, in the spec's words *)

(** [cpm = ncorrect / (t / 60e9)], truncated to an integer. *)
Definition spec_cpm (io : float -> Z) (ncorrect t : Z) : Z :=
  GoFloat.to_int io (GoFloat.of_int ncorrect / (GoFloat.of_int t / 60e9))%float.

(** [wpm = cpm / 5], an integer division that truncates toward zero. *)
Definition spec_wpm (cpm : Z) : Z := Z.quot cpm 5.

(** [accuracy = ncorrect / (nerrs + ncorrect) * 100]. *)
Definition spec_accuracy (nerrs ncorrect : Z) : float :=
  (GoFloat.of_int ncorrect / GoFloat.of_int (GoInt.add nerrs ncorrect) * 100)%float.

Definition stats (io : float -> Z) (r : start_result) : result := {|
  wpm := spec_wpm (spec_cpm io (ncorrect r) (elapsed r));
  cpm := spec_cpm io (ncorrect r) (elapsed r);
  accuracy := spec_accuracy (nerrs r) (ncorrect r) |}.

(** The three ways the driver reads an exit key. *)
Definition natural (r : start_result) : Prop := exitKey r = 0.
Definition quit (r : start_result) : Prop := exitKey r = KeyCtrlC.
Definition other (r : start_result) : Prop :=
  exitKey r ≠ 0 ∧ exitKey r ≠ KeyCtrlC.

Global Instance natural_dec r : Decision (natural r) := _.

(** Projections of a trace. *)
Definition stdout_of {Color} (tr : list (obs Color)) : list string :=
  omap (fun o => match o with ObsStdout l => Some l | _ => None end) tr.

Definition reports_of {Color} (tr : list (obs Color)) : list (Z * Z * float) :=
  omap (fun o => match o with ObsReport c w a => Some (c, w, a) | _ => None end) tr.

Definition starts_of {Color} (tr : list (obs Color))
  : list (typer Color * list text * Z) :=
  omap (fun o => match o with ObsStart ty c t => Some (ty, c, t) | _ => None end) tr.

(** The engine [main] builds once the colours [cs] are known. *)
Definition configured {Color} (fl : flags) (cs : colors Color) : typer Color :=
  let ty :=
    NewTyper (fgcol _ cs) (bgcol _ cs) (hicol _ cs) (hicol2 _ cs)
      (hicol3 _ cs) (errcol _ cs) in
  if noSkip fl then {| palette := palette ty; SkipWord := false |} else ty.

(** The colour [main] ends up with for [key] when no theme is named on
    the command line: the entry of the configuration file if there is
    one, else the colour of the base theme. *)
Definition configured_color {Color} (newTcellColor : string -> Color)
    (cfg base : gmap string string) (key : string) : Color :=
  match cfg !! key with
  | Some c => newTcellColor c
  | None => newTcellColor (default ""%string (base !! key))
  end.

(** ** Paragraphs, in the spec's words

    A paragraph boundary is a run of one or more blank (empty) lines,
    that is, a run of two or more newlines. *)

(** Every newline of [p] is followed by a character that is not a
    newline: [p] has no blank line and does not end with a newline. *)
Fixpoint tight (p : text) : bool :=
  match p with
  | [] => true
  | x :: p' =>
      (if decide (x = nl)
       then match p' with
            | y :: _ => bool_decide (y ≠ nl)
            | [] => false
            end
       else true) && tight p'
  end.

(** A paragraph: a non-empty text that does not begin with a newline,
    does not end with one, and has no blank line. *)
Definition paragraph (p : text) : bool :=
  match p with
  | x :: _ => bool_decide (x ≠ nl) && tight p
  | [] => false
  end.

(** A run of [g] newlines followed by the text [p]. *)
Definition after_gap (gp : nat * text) : text := repeat nl gp.1 ++ gp.2.

(** The text made of [lead] newlines, the paragraph [p0], the paragraphs
    of [rest], each after its run of newlines, and [trail] newlines. *)
Definition woven (lead : nat) (p0 : text) (rest : list (nat * text))
    (trail : nat) : text :=
  repeat nl lead ++ p0 ++ flat_map after_gap rest ++ repeat nl trail.

(** The conditions on the parts of a woven text: the gaps are blank-line
    runs, the pieces are paragraphs. *)
Definition well_woven (p0 : text) (rest : list (nat * text)) : Prop :=
  paragraph p0 = true ∧
  Forall (fun gp => (2 <= gp.1)%nat ∧ paragraph gp.2 = true) rest.

(** The same text with every gap shrunk to one blank line. *)
Definition joined (p0 : text) (rest : list (nat * text)) : text :=
  p0 ++ flat_map (fun gp => nl :: nl :: gp.2) rest.



(** Whether a printed line ends, before its newline, with a decimal
    point followed by exactly two digits. *)
Definition is_digit (c : ascii) : bool :=
  (48 <=? nat_of_ascii c)%nat && (nat_of_ascii c <=? 57)%nat.

Definition two_decimals (line : string) : bool :=
  match rev (list_ascii_of_string line) with
  | e :: d2 :: d1 :: p :: _ =>
      bool_decide (e = nl) && is_digit d2 && is_digit d1
        && bool_decide (p = "."%char)
  | _ => false
  end.

(** ** A concrete setting, for examples *)

Module Sample.

Definition str (s : string) : text := list_ascii_of_string s.

(** The out-of-range result of amd64's conversion instruction. *)
Definition io (_ : float) : Z := GoInt.min_int.

Definition themes : gmap string (gmap string string) :=
  {[ "default"%string :=
       {[ "bgcol"%string := "#000000"%string; "fgcol"%string := "#5c5c5c"%string;
          "hicol"%string := "#ffffff"%string; "hicol2"%string := "#00ff00"%string;
          "hicol3"%string := "#0000ff"%string; "errcol"%string := "#ff0000"%string ]};
     "paper"%string :=
       {[ "bgcol"%string := "#ffffff"%string; "fgcol"%string := "#333333"%string;
          "hicol"%string := "#000000"%string; "hicol2"%string := "#008800"%string;
          "hicol3"%string := "#000088"%string; "errcol"%string := "#cc0000"%string ]} ]}.

Definition wordWrap (s : text) (_ : Z) : text := s.
Definition randomText (i : nat) (n w : Z) : text := repeat "a"%char (S i).

Definition main : cli -> env -> run string :=
  main (fun s => s) themes wordWrap randomText io.

Definition no_flags : cli := {|
  opt_n := None; opt_w := None; opt_t := None;
  opt_noskip := false; opt_csv := false; opt_raw := false; opt_o := false;
  opt_theme := None; opt_list := None |}.

Definition csv_one_shot : cli := {|
  opt_n := None; opt_w := None; opt_t := None;
  opt_noskip := false; opt_csv := true; opt_raw := false; opt_o := true;
  opt_theme := None; opt_list := None |}.

Definition with_timeout (t : Z) : cli := {|
  opt_n := None; opt_w := None; opt_t := Some t;
  opt_noskip := false; opt_csv := false; opt_raw := false; opt_o := false;
  opt_theme := None; opt_list := None |}.

Definition with_theme (name : string) : cli := {|
  opt_n := None; opt_w := None; opt_t := None;
  opt_noskip := false; opt_csv := false; opt_raw := false; opt_o := false;
  opt_theme := Some name; opt_list := None |}.

Definition ty : typer string :=
  NewTyper "#5c5c5c"%string "#000000"%string "#ffffff"%string
    "#00ff00"%string "#0000ff"%string "#ff0000"%string.

Definition content (_ : nat) : list text := [str "the quick brown fox"].

(** A piped text with DOS line ends: a blank line, a paragraph of two
    lines, two blank lines, a paragraph of one line, a blank line. *)
Definition letter : text :=
  [cr; nl] ++ str "Dear Sir," ++ [cr; nl] ++ str "thank you." ++ [cr; nl]
    ++ [cr; nl] ++ [cr; nl] ++ str "Yours" ++ [cr; nl] ++ [cr; nl].

(** 45 correct keystrokes and 5 errors in half a minute. *)
Definition good_run : start_result :=
  {| nerrs := 5; ncorrect := 45; elapsed := 30000000000; exitKey := 0 |}.

(** A run that ends by timeout before any key was typed. *)
Definition idle_run : start_result :=
  {| nerrs := 0; ncorrect := 0; elapsed := 1000000000; exitKey := 0 |}.

(** A run left with the escape key. *)
Definition restarted_run : start_result :=
  {| nerrs := 2; ncorrect := 7; elapsed := 3000000000; exitKey := KeyEscape |}.

Definition quit_run : start_result :=
  {| nerrs := 0; ncorrect := 3; elapsed := 1000000000; exitKey := KeyCtrlC |}.

Definition at_terminal (starts : list start_result) (events : list event)
  : env := {|
  stdin := Terminal; ttrc := None; screen_ok := true;
  starts := starts; events := events |}.

End Sample.


(** * Notions used by the further properties *)

(** An event the report screen does nothing with: anything but the
    escape key and Ctrl-C. *)
Definition ignored (ev : event) : Prop :=
  match ev with
  | EventKey key => key ≠ KeyEscape ∧ key ≠ KeyCtrlC
  | EventOther => True
  end.

(** What a report screen shows of a log entry. *)
Definition shown (r : result) : Z * Z * float := (cpm r, wpm r, accuracy r).

(** What happens on the terminal while the test goes on: runs of the
    engine and report screens. *)
Definition on_screen {Color} (o : obs Color) : Prop :=
  match o with
  | ObsStart _ _ _ | ObsReport _ _ _ => True
  | _ => False
  end.

(** What [exit] does, for the log [rs]. *)
Definition leaving {Color} (fl : flags) (rs : list result) : list (obs Color) :=
  ObsFini :: map (fun r => ObsStdout (csv_line r))
               (if csvMode fl then rs else []).

Definition stderr_of {Color} (tr : list (obs Color)) : list string :=
  omap (fun o => match o with ObsStderr m => Some m | _ => None end) tr.

Definition themes_of {Color} (tr : list (obs Color)) : list (gset string) :=
  omap (fun o => match o with ObsThemes s => Some s | _ => None end) tr.

(** The content each run of a trace was started with. *)
Definition contents_of {Color} (tr : list (obs Color)) : list (list text) :=
  map (fun s => s.1.2) (starts_of tr).

(** [strings.Join(ps, "\n\n")]. *)
Fixpoint join2 (ps : list text) : text :=
  match ps with
  | [] => []
  | [p] => p
  | p :: ps' => p ++ nl :: nl :: join2 ps'
  end.

(** Every newline of [s] comes right after a space. *)
Fixpoint spaced_newlines (prev : option ascii) (s : text) : Prop :=
  match s with
  | [] => True
  | x :: s' => (x = nl -> prev = Some sp) ∧ spaced_newlines (Some x) s'
  end.

(** The theme named on the command line does not exist. *)
Definition unknown_theme (themes : gmap string (gmap string string)) (c : cli)
  : Prop :=
  themeName (parse c) ≠ ""%string ∧ themes !! themeName (parse c) = None.

(** What [readConfig] guarantees of every entry. *)
Definition clean_entry (k v : string) : Prop :=
  (colon ∉ list_ascii_of_string k) ∧ (nl ∉ list_ascii_of_string k) ∧
  (nl ∉ list_ascii_of_string v) ∧
  head (list_ascii_of_string v) ≠ Some sp ∧
  last (list_ascii_of_string v) ≠ Some sp.


(** * Properties *)

(** ** The models of the library calls, on examples *)

Example split_lines :
  split nl (Sample.str "a:b" ++ nl :: nl :: Sample.str "c")
  = [Sample.str "a:b"; []; Sample.str "c"].
Proof. reflexivity. Qed.

Example split2_leftmost :
  split2 "," "," (Sample.str "a,,b,,,c,") = map Sample.str ["a"; "b"; ",c,"]%string.
Proof. reflexivity. Qed.

Example split2_empty : split2 nl nl [] = [[]].
Proof. reflexivity. Qed.

Example collapse_runs :
  collapse_blank_lines
    (nl :: nl :: nl :: Sample.str "a" ++ nl :: Sample.str "b" ++ nl :: nl :: nl
        :: nl :: Sample.str "c" ++ [nl])
  = nl :: nl :: Sample.str "a" ++ nl :: Sample.str "b" ++ nl :: nl
       :: Sample.str "c" ++ [nl].
Proof. reflexivity. Qed.

Example trim_spaces : trim sp (Sample.str "  a b  ") = Sample.str "a b".
Proof. reflexivity. Qed.

Example readConfig_sample :
  readConfig (Some (Sample.str "theme: paper" ++ nl :: Sample.str "bgcol:#123456 "
                      ++ nl :: Sample.str "no separator" ++ nl
                      :: Sample.str "bgcol: #abcdef"))
  = {[ "theme"%string := "paper"%string; "bgcol"%string := "#abcdef"%string ]}.
Proof. vm_compute. reflexivity. Qed.

Example float_of_int_rounds :
  GoFloat.of_int (2 ^ 53 + 1) = GoFloat.of_int (2 ^ 53).
Proof. vm_compute. reflexivity. Qed.

Example to_int_truncates :
  GoFloat.to_int Sample.io (GoFloat.of_int 7 / GoFloat.of_int 2)%float = 3 ∧
  GoFloat.to_int Sample.io (GoFloat.of_int (-7) / GoFloat.of_int 2)%float = -3.
Proof. vm_compute. done. Qed.

Example f2_half_even :
  Fmt.f2 0.125%float = "0.12"%string ∧ Fmt.f2 0.375%float = "0.38"%string ∧
  Fmt.f2 90%float = "90.00"%string ∧ Fmt.f2 (0 / 0)%float = "NaN"%string.
Proof. vm_compute. done. Qed.

(** The spec's own example: 45 correct keystrokes and 5 errors are an
    accuracy of exactly 90. *)
Example accuracy_90 : spec_accuracy 5 45 = 90%float.
Proof. vm_compute. reflexivity. Qed.

(** The driver itself does not guard the division: with an elapsed time
    of 0 the quotient is infinite and the conversion to [int] is left to
    the implementation. *)
Example cpm_of_zero_time io :
  spec_cpm io 45 0 = GoInt.wrap (io infinity).
Proof. reflexivity. Qed.

Example cpm_of_one_tick io : spec_cpm io 45 1 = 2700000000000.
Proof. reflexivity. Qed.


(** ** Machine integers *)

Lemma wrap_in_range z : GoInt.min_int <= z <= GoInt.max_int -> GoInt.wrap z = z.
Proof.
  unfold GoInt.wrap, GoInt.min_int, GoInt.max_int. intros Hz.
  rewrite Z.mod_small; lia.
Qed.

Lemma wrap_bounds z : GoInt.min_int <= GoInt.wrap z <= GoInt.max_int.
Proof.
  unfold GoInt.wrap, GoInt.min_int, GoInt.max_int.
  pose proof (Z.mod_pos_bound (z + 2 ^ 63) (2 ^ 64)). lia.
Qed.

Lemma to_int_bounds io f :
  GoInt.min_int <= GoFloat.to_int io f <= GoInt.max_int.
Proof.
  unfold GoFloat.to_int.
  destruct (GoFloat.trunc f) as [z|]; [|apply wrap_bounds].
  destruct (GoInt.in_range z) eqn:Hz; [|apply wrap_bounds].
  unfold GoInt.in_range in Hz. apply andb_true_iff in Hz as [H1 H2]. lia.
Qed.

(** On the result of a conversion, Go's [/ 5] is the truncating
    quotient: nothing wraps. *)
Lemma quot5_to_int io f :
  GoInt.quot (GoFloat.to_int io f) 5 = Z.quot (GoFloat.to_int io f) 5.
Proof.
  pose proof (to_int_bounds io f) as Hb. unfold GoInt.quot.
  apply wrap_in_range. revert Hb. unfold GoInt.min_int, GoInt.max_int.
  generalize (GoFloat.to_int io f). intros z Hz.
  destruct (Z.le_gt_cases 0 z) as [Hpos|Hneg].
  - rewrite Z.quot_div_nonneg by lia.
    pose proof (Z.div_pos z 5). pose proof (Z.div_le_upper_bound z 5 z). lia.
  - replace z with (- - z) by lia. rewrite Z.quot_opp_l by lia.
    rewrite Z.quot_div_nonneg by lia.
    pose proof (Z.div_pos (- z) 5).
    pose proof (Z.div_le_upper_bound (- z) 5 (- z)). lia.
Qed.

(** ** Conversions *)

(** [trunc] drops the fraction: the result is the integer next to the
    value [m * 2^e] of the float, on the side of zero. *)
Lemma trunc_toward_zero f s m e z :
  Prim2SF f = S754_finite s m e -> GoFloat.trunc f = Some z ->
  (0 <= e -> Z.abs z = Z.pos m * 2 ^ e) ∧
  (e < 0 -> Z.abs z * 2 ^ (- e) <= Z.pos m < (Z.abs z + 1) * 2 ^ (- e)) ∧
  (z ≠ 0 -> (z < 0 ↔ s = true)).
Proof.
  unfold GoFloat.trunc. intros -> [= <-].
  assert (Hsh : 0 <= Z.shiftl (Z.pos m) e) by (apply Z.shiftl_nonneg; lia).
  assert (Habs : Z.abs (if s then - Z.shiftl (Z.pos m) e else Z.shiftl (Z.pos m) e)
                 = Z.shiftl (Z.pos m) e) by (destruct s; lia).
  rewrite Habs. split; [|split].
  - intros He. by rewrite Z.shiftl_mul_pow2.
  - intros He. rewrite Z.shiftl_div_pow2 by lia.
    assert (Hpow : 0 < 2 ^ (- e)) by (apply Z.pow_pos_nonneg; lia).
    pose proof (Z.mul_div_le (Z.pos m) (2 ^ (- e)) Hpow).
    pose proof (Z.mul_succ_div_gt (Z.pos m) (2 ^ (- e)) Hpow). lia.
  - intros Hz. destruct s; split; try done; lia.
Qed.

(** ** Traces *)

Lemma trace_emit {Color} (o : obs Color) r : trace (emit o r) = o :: trace r.
Proof. reflexivity. Qed.

Lemma starts_of_start {Color} (ty : typer Color) c t tr :
  starts_of (ObsStart ty c t :: tr) = (ty, c, t) :: starts_of tr.
Proof. reflexivity. Qed.

Lemma starts_of_report {Color} c w a (tr : list (obs Color)) :
  starts_of (ObsReport c w a :: tr) = starts_of tr.
Proof. reflexivity. Qed.

(** ** The loop, case by case *)

Section LoopFacts.

Context {Color : Type}.
Variable io : float -> Z.
Variable fl : flags.
Variable ty : typer Color.
Variable content : nat -> list text.
Variable tmo : Z.

Local Abbreviation loop := (main_loop io fl ty content tmo).
Local Abbreviation started calls := (ObsStart ty (content calls) tmo).
Local Abbreviation leave := (@exit Color fl).

Lemma loop_waiting rs calls evs :
  loop rs calls [] evs = emit (started calls) (stop rs Waiting).
Proof. reflexivity. Qed.

Lemma loop_natural rs calls r starts evs :
  natural r ->
  loop rs calls (r :: starts) evs =
  emit (started calls)
    (let rs' := rs ++ [stats io r] in
     if oneShotMode fl then leave rs'
     else emit (ObsReport (cpm (stats io r)) (wpm (stats io r))
                  (accuracy (stats io r)))
            match showReport evs with
            | ReportEscape evs' => loop rs' (S calls) starts evs'
            | ReportCtrlC => leave rs'
            | ReportWaiting => stop rs' Waiting
            end).
Proof.
  intros Hn. cbn [main_loop]. rewrite decide_True by exact Hn.
  unfold stats, spec_wpm, spec_cpm, spec_accuracy. cbn [wpm cpm accuracy].
  rewrite quot5_to_int. reflexivity.
Qed.

Lemma loop_quit rs calls r starts evs :
  quit r ->
  loop rs calls (r :: starts) evs = emit (started calls) (leave rs).
Proof.
  intros Hq. cbn [main_loop]. red in Hq.
  rewrite decide_False by (rewrite Hq; discriminate).
  rewrite decide_True by exact Hq. reflexivity.
Qed.

Lemma loop_other rs calls r starts evs :
  other r ->
  loop rs calls (r :: starts) evs =
  emit (started calls) (loop rs (S calls) starts evs).
Proof.
  intros [H0 Hc]. cbn [main_loop].
  rewrite decide_False by exact H0. rewrite decide_False by exact Hc.
  reflexivity.
Qed.

Lemma exit_key_cases r : natural r ∨ quit r ∨ other r.
Proof.
  unfold natural, quit, other.
  destruct (decide (exitKey r = 0)); [by left|].
  destruct (decide (exitKey r = KeyCtrlC)); [by right; left|].
  by right; right.
Qed.

Lemma loop_head rs calls starts evs :
  ∃ tr, trace (loop rs calls starts evs) = started calls :: tr.
Proof. destruct starts; cbn [main_loop emit trace]; eauto. Qed.

(** The log only grows, and only by the statistics of natural runs:
    at the end it is the initial log followed by the statistics of the
    natural runs among the [k] runs the driver got through. *)
Lemma loop_results starts : ∀ rs calls evs,
  ∃ k, (k <= length starts)%nat ∧
    results (loop rs calls starts evs) =
    rs ++ map (stats io) (filter natural (take k starts)).
Proof.
  induction starts as [|r starts IH]; intros rs calls evs.
  - exists 0%nat. split; [done|]. cbn. by rewrite app_nil_r.
  - destruct (exit_key_cases r) as [Hn|[Hq|Ho]].
    + rewrite loop_natural by done. cbn zeta.
      assert (Hone : ∀ k, rs ++ stats io r :: map (stats io) (filter natural (take k starts))
                = rs ++ map (stats io) (filter natural (take (S k) (r :: starts)))).
      { intros k. cbn [take]. by rewrite filter_cons_True. }
      destruct (oneShotMode fl).
      * exists 1%nat. split; [cbn; lia|]. rewrite <- (Hone 0%nat).
        cbn. by rewrite take_0.
      * cbn [emit results]. destruct (showReport evs) as [evs'| |].
        -- destruct (IH (rs ++ [stats io r]) (S calls) evs') as (k & Hk & ->).
           exists (S k). split; [cbn; lia|]. rewrite <- Hone.
           by rewrite <- app_assoc.
        -- exists 1%nat. split; [cbn; lia|]. rewrite <- (Hone 0%nat).
           cbn. by rewrite take_0.
        -- exists 1%nat. split; [cbn; lia|]. rewrite <- (Hone 0%nat).
           cbn. by rewrite take_0.
    + rewrite loop_quit by done. exists 0%nat. split; [cbn; lia|].
      cbn. by rewrite app_nil_r.
    + rewrite loop_other by done. cbn [emit results].
      destruct (IH rs (S calls) evs) as (k & Hk & ->).
      exists (S k). split; [cbn; lia|]. cbn [take].
      rewrite filter_cons_False; [done|]. destruct Ho as [Ho _]. exact Ho.
Qed.

(** The statistics of a natural run are recorded right after the log
    as it was. *)
Lemma loop_natural_recorded rs calls r starts evs :
  natural r ->
  results (loop rs calls (r :: starts) evs) !! length rs = Some (stats io r).
Proof.
  intros Hn.
  assert (Hpre : ∃ more, results (loop rs calls (r :: starts) evs)
                         = (rs ++ [stats io r]) ++ more).
  { rewrite loop_natural by done. cbn zeta.
    destruct (oneShotMode fl); [by exists []; rewrite app_nil_r|].
    cbn [emit results]. destruct (showReport evs) as [evs'| |].
    - destruct (loop_results starts (rs ++ [stats io r]) (S calls) evs')
        as (k & _ & ->).
      eauto.
    - by exists []; rewrite app_nil_r.
    - by exists []; rewrite app_nil_r. }
  destruct Hpre as [more ->].
  rewrite <- app_assoc, lookup_app_r by lia.
  by rewrite Nat.sub_diag.
Qed.

(** The loop leaves only through [exit], with status 0, or stays
    blocked on its environment. *)
Lemma loop_status starts : ∀ rs calls evs,
  status (loop rs calls starts evs) = Exited 0 ∨
  status (loop rs calls starts evs) = Waiting.
Proof.
  induction starts as [|r starts IH]; intros rs calls evs; [by right|].
  destruct (exit_key_cases r) as [Hn|[Hq|Ho]].
  - rewrite loop_natural by done. cbn zeta.
    destruct (oneShotMode fl); [by left|]. cbn [emit status].
    destruct (showReport evs); [apply IH|by left|by right].
  - rewrite loop_quit by done. by left.
  - rewrite loop_other by done. apply IH.
Qed.

Lemma stdout_of_exit rs :
  stdout_of (trace (leave rs)) =
  if csvMode fl then map csv_line rs else [].
Proof.
  unfold exit, stdout_of. cbn [trace]. destruct (csvMode fl); [|done].
  cbn [omap list_omap]. induction rs as [|r rs IH]; [done|].
  cbn -[csv_line]. by f_equal.
Qed.

Lemma starts_of_exit rs : starts_of (trace (leave rs)) = [].
Proof.
  unfold exit, starts_of. cbn [trace]. destruct (csvMode fl); [|done].
  cbn [omap list_omap]. induction rs as [|r rs IH]; [done|].
  cbn -[csv_line]. done.
Qed.

Lemma reports_of_exit rs : reports_of (trace (leave rs)) = [].
Proof.
  unfold exit, reports_of. cbn [trace]. destruct (csvMode fl); [|done].
  cbn [omap list_omap]. induction rs as [|r rs IH]; [done|].
  cbn -[csv_line]. done.
Qed.

(** What reaches stdout: nothing while the loop runs; at exit, the CSV
    lines of the whole log when CSV mode is on. *)
Lemma loop_stdout starts : ∀ rs calls evs,
  stdout_of (trace (loop rs calls starts evs)) =
  match status (loop rs calls starts evs) with
  | Exited _ =>
      if csvMode fl then map csv_line (results (loop rs calls starts evs))
      else []
  | _ => []
  end.
Proof.
  induction starts as [|r starts IH]; intros rs calls evs; [done|].
  destruct (exit_key_cases r) as [Hn|[Hq|Ho]].
  - rewrite loop_natural by done. cbn zeta.
    destruct (oneShotMode fl).
    + cbn [emit trace status results stdout_of omap].
      apply stdout_of_exit.
    + cbn [emit trace status results stdout_of omap].
      destruct (showReport evs); [apply IH|apply stdout_of_exit|done].
  - rewrite loop_quit by done.
    cbn [emit trace status results stdout_of omap]. apply stdout_of_exit.
  - rewrite loop_other by done.
    cbn [emit trace status results stdout_of omap]. apply IH.
Qed.

(** Every call of [typer.Start] gets the same engine and the same
    timeout. *)
Lemma loop_starts starts : ∀ rs calls evs,
  Forall (fun s => s.1.1 = ty ∧ s.2 = tmo)
    (starts_of (trace (loop rs calls starts evs))).
Proof.
  pose proof starts_of_exit as Hexit.
  induction starts as [|r starts IH]; intros rs calls evs.
  - cbn. by constructor.
  - destruct (exit_key_cases r) as [Hn|[Hq|Ho]].
    + rewrite loop_natural by done. cbn zeta.
      destruct (oneShotMode fl).
      * cbn [emit trace starts_of omap]. constructor; [done|].
        fold (@starts_of Color). rewrite Hexit. constructor.
      * cbn [emit trace starts_of omap]. constructor; [done|].
        fold (@starts_of Color).
        destruct (showReport evs); [apply IH|rewrite Hexit; constructor|constructor].
    + rewrite loop_quit by done. cbn [emit trace starts_of omap].
      constructor; [done|]. fold (@starts_of Color). rewrite Hexit. constructor.
    + rewrite loop_other by done. cbn [emit trace starts_of omap].
      constructor; [done|]. apply IH.
Qed.

(** In one-shot mode no report screen is ever shown. *)
Lemma loop_one_shot_reports starts : ∀ rs calls evs,
  oneShotMode fl = true ->
  reports_of (trace (loop rs calls starts evs)) = [].
Proof.
  intros rs calls evs Hone.
  pose proof reports_of_exit as Hexit.
  revert rs calls evs.
  induction starts as [|r starts IH]; intros rs calls evs; [done|].
  destruct (exit_key_cases r) as [Hn|[Hq|Ho]].
  - rewrite loop_natural by done. cbn zeta. rewrite Hone.
    cbn [emit trace reports_of omap]. apply Hexit.
  - rewrite loop_quit by done. cbn [emit trace reports_of omap]. apply Hexit.
  - rewrite loop_other by done. cbn [emit trace reports_of omap]. apply IH.
Qed.

End LoopFacts.


(** ** Statistics (C1, C2) *)

(** C1. When [typer.Start] returns with exit key 0 (natural end or
    timeout), the driver appends to the log exactly the statistics the
    spec gives: [cpm] is [ncorrect / (t / 60e9)] in [float64] arithmetic
    converted to [int] (the fraction dropped), [wpm] is the integer
    quotient [cpm / 5], and [accuracy] is
    [ncorrect / (nerrs + ncorrect) * 100] in [float64] arithmetic; unless
    one-shot mode is on, the report screen shows the same three values. *)
Theorem natural_run_statistics {Color} io fl (ty : typer Color) content tmo
    rs calls r starts evs :
  natural r ->
  let c :=
    GoFloat.to_int io
      (GoFloat.of_int (ncorrect r) / (GoFloat.of_int (elapsed r) / 60e9))%float in
  let w := Z.quot c 5 in
  let a :=
    (GoFloat.of_int (ncorrect r)
       / GoFloat.of_int (GoInt.add (nerrs r) (ncorrect r)) * 100)%float in
  let run := main_loop io fl ty content tmo rs calls (r :: starts) evs in
  results run !! length rs = Some {| wpm := w; cpm := c; accuracy := a |} ∧
  (oneShotMode fl = false -> reports_of (trace run) !! 0%nat = Some (c, w, a)).
Proof.
  intros Hn c w a run. split.
  - subst run. by rewrite loop_natural_recorded.
  - intros Hone. subst run. rewrite loop_natural by done. cbn zeta.
    rewrite Hone. reflexivity.
Qed.

Lemma natural_run_statistics_witness :
  results (main_loop Sample.io (parse Sample.no_flags) Sample.ty Sample.content
             (-1) [] 0 [Sample.good_run] [EventKey KeyEscape]) !! 0%nat
  = Some {| wpm := 18; cpm := 90; accuracy := 90 |}.
Proof.
  exact (proj1 (natural_run_statistics Sample.io (parse Sample.no_flags)
                  Sample.ty Sample.content (-1) [] 0 Sample.good_run []
                  [EventKey KeyEscape] eq_refl)).
Defined.

(** C2, as the code has it. The accuracy of a run without any keystroke
    is not guarded: the driver divides [float64(0)] by [float64(0)], which
    does not trap and yields NaN; NaN is recorded, [%.2f] prints it as
    [NaN], and so does the report screen. *)
Theorem zero_keystrokes_accuracy {Color} io fl (ty : typer Color) content tmo
    rs calls r starts evs :
  natural r -> nerrs r = 0 -> ncorrect r = 0 ->
  ∃ res,
    results (main_loop io fl ty content tmo rs calls (r :: starts) evs)
      !! length rs = Some res ∧
    PrimFloat.is_nan (accuracy res) = true ∧
    Fmt.f2 (accuracy res) = "NaN"%string ∧
    report (cpm res) (wpm res) (accuracy res)
    = ("WPM: " ++ Fmt.d (wpm res) ++ Fmt.newline ++ "CPM: " ++ Fmt.d (cpm res)
         ++ Fmt.newline ++ "Accuracy: NaN%")%string.
Proof.
  intros Hn He Hc. exists (stats io r).
  split; [by apply loop_natural_recorded|].
  unfold report, stats, spec_accuracy. cbn [accuracy]. rewrite He, Hc.
  assert (Hnan : Fmt.f2 (GoFloat.of_int 0 / GoFloat.of_int (GoInt.add 0 0) * 100)
                 = "NaN"%string) by (vm_compute; reflexivity).
  rewrite Hnan. split; [vm_compute; reflexivity|]. split; reflexivity.
Qed.

Lemma zero_keystrokes_accuracy_witness :
  ∃ res,
    results (main_loop Sample.io (parse Sample.no_flags) Sample.ty Sample.content
               (-1) [] 0 [Sample.idle_run] []) !! 0%nat = Some res ∧
    PrimFloat.is_nan (accuracy res) = true ∧
    Fmt.f2 (accuracy res) = "NaN"%string ∧
    report (cpm res) (wpm res) (accuracy res)
    = ("WPM: " ++ Fmt.d (wpm res) ++ Fmt.newline ++ "CPM: " ++ Fmt.d (cpm res)
         ++ Fmt.newline ++ "Accuracy: NaN%")%string.
Proof.
  exact (zero_keystrokes_accuracy Sample.io (parse Sample.no_flags) Sample.ty
           Sample.content (-1) [] 0 Sample.idle_run [] [] eq_refl eq_refl eq_refl).
Defined.

(** C2, as stated, fails: after a run without keystrokes the accuracy in
    the log is not 0. *)
Lemma zero_keystrokes_accuracy_not_zero :
  ¬ Forall (fun res => accuracy res = 0%float)
      (results (main_loop Sample.io (parse Sample.no_flags) Sample.ty
                  Sample.content (-1) [] 0 [Sample.idle_run] [])).
Proof.
  intros H. apply Forall_inv in H. cbn [accuracy] in H.
  apply (f_equal PrimFloat.is_nan) in H. vm_compute in H. discriminate H.
Qed.


(** ** Dispatch on the exit key (C3, C8) *)

(** C3, as the code has it. The driver dispatches on the exit key of
    every tuple [typer.Start] returns. On the natural/timeout key it
    computes the statistics and records them; then, when one-shot mode is
    off, it shows the report, and once the report is left with the escape
    key the loop goes on with a new run; when one-shot mode is on it
    leaves the program at once, without showing the report. On Ctrl-C it
    leaves the program, with status 0, recording and showing nothing. *)
Theorem exit_key_dispatch {Color} io fl (ty : typer Color) content tmo
    rs calls r starts evs :
  let run := main_loop io fl ty content tmo rs calls (r :: starts) evs in
  let started := ObsStart ty (content calls) tmo in
  let shown :=
    ObsReport (cpm (stats io r)) (wpm (stats io r)) (accuracy (stats io r)) in
  (natural r -> oneShotMode fl = false ->
     (∃ tr, trace run = started :: shown :: tr) ∧
     ∀ evs', showReport evs = ReportEscape evs' ->
       run = emit started (emit shown
               (main_loop io fl ty content tmo (rs ++ [stats io r]) (S calls)
                  starts evs'))) ∧
  (natural r -> oneShotMode fl = true ->
     run = emit started (exit fl (rs ++ [stats io r])) ∧
     reports_of (trace run) = [] ∧ status run = Exited 0) ∧
  (quit r ->
     run = emit started (exit fl rs) ∧
     reports_of (trace run) = [] ∧ results run = rs ∧ status run = Exited 0).
Proof.
  intros run started shown. subst run. split; [|split].
  - intros Hn Hone. rewrite loop_natural by done. cbn zeta. rewrite Hone.
    split; [cbn [emit trace]; eauto|].
    by intros evs' ->.
  - intros Hn Hone. rewrite loop_natural by done. cbn zeta. rewrite Hone.
    split; [done|]. split; [|done].
    rewrite trace_emit. apply (reports_of_exit (Color:=Color)).
  - intros Hq. rewrite loop_quit by done.
    split; [done|]. split; [|done].
    rewrite trace_emit. apply (reports_of_exit (Color:=Color)).
Qed.

Lemma exit_key_dispatch_witness :
  let run :=
    main_loop Sample.io (parse Sample.csv_one_shot) Sample.ty Sample.content
      (-1) [] 0 [Sample.good_run] [] in
  run = emit (ObsStart Sample.ty (Sample.content 0%nat) (-1))
          (exit (parse Sample.csv_one_shot) [stats Sample.io Sample.good_run]) ∧
  reports_of (trace run) = [] ∧ status run = Exited 0.
Proof.
  exact (proj1 (proj2 (exit_key_dispatch Sample.io (parse Sample.csv_one_shot)
                         Sample.ty Sample.content (-1) [] 0 Sample.good_run [] []))
           eq_refl eq_refl).
Defined.

(** C3, as stated, fails in one-shot mode: a run that ends naturally is
    followed by no report at all, and the program is left although a
    key event asking to go on is pending. *)
Lemma one_shot_shows_no_report :
  let run :=
    main_loop Sample.io (parse Sample.csv_one_shot) Sample.ty Sample.content
      (-1) [] 0 [Sample.good_run; Sample.good_run] [EventKey KeyEscape] in
  natural Sample.good_run ∧
  reports_of (trace run) = [] ∧
  length (starts_of (trace run)) = 1%nat ∧
  status run = Exited 0.
Proof. vm_compute. repeat split; reflexivity. Qed.

(** C8. An exit key that is neither 0 nor Ctrl-C makes the driver go
    straight to the next iteration: nothing is recorded, no report is
    shown, and the next thing it does is to call [typer.Start] again, with
    the content of a new call of [contentFn] and the same timeout (and
    engine). Over a whole execution the log grows by one entry per run
    that returned the natural key, and by nothing else. *)
Theorem other_key_restarts {Color} io fl (ty : typer Color) content tmo
    rs calls r starts evs :
  other r ->
  let run := main_loop io fl ty content tmo rs calls (r :: starts) evs in
  run = emit (ObsStart ty (content calls) tmo)
          (main_loop io fl ty content tmo rs (S calls) starts evs) ∧
  (∃ tr, trace run =
         ObsStart ty (content calls) tmo
           :: ObsStart ty (content (S calls)) tmo :: tr) ∧
  (∀ all : list start_result,
     ∃ k, (k <= length all)%nat ∧
       results (main_loop io fl ty content tmo rs calls all evs) =
       rs ++ map (stats io) (filter natural (take k all))).
Proof.
  intros Ho run. subst run. rewrite loop_other by done. repeat split.
  - destruct (loop_head io fl ty content tmo rs (S calls) starts evs) as [tr Htr].
    exists tr. cbn [emit trace]. by rewrite Htr.
  - intros all. apply loop_results.
Qed.

Lemma other_key_restarts_witness :
  let run :=
    main_loop Sample.io (parse Sample.no_flags) Sample.ty Sample.content (-1)
      [] 0 [Sample.restarted_run; Sample.quit_run] [] in
  run = emit (ObsStart Sample.ty (Sample.content 0%nat) (-1))
          (main_loop Sample.io (parse Sample.no_flags) Sample.ty Sample.content
             (-1) [] 1 [Sample.quit_run] []).
Proof.
  refine (proj1 (other_key_restarts Sample.io (parse Sample.no_flags) Sample.ty
                   Sample.content (-1) [] 0 Sample.restarted_run
                   [Sample.quit_run] [] _)).
  split; vm_compute; discriminate.
Defined.


(** ** CSV output and one-shot mode (C9) *)

Lemma list_ascii_of_string_app (a b : string) :
  list_ascii_of_string (a ++ b) = list_ascii_of_string a ++ list_ascii_of_string b.
Proof.
  induction a as [|c a IH]; [done|].
  change (c :: list_ascii_of_string (a ++ b)
          = c :: (list_ascii_of_string a ++ list_ascii_of_string b)).
  by rewrite IH.
Qed.

Lemma string_app_assoc (a b c : string) :
  ((a ++ b) ++ c)%string = (a ++ (b ++ c))%string.
Proof.
  induction a as [|x a IH]; [done|].
  change (String x ((a ++ b) ++ c) = String x (a ++ (b ++ c))).
  by rewrite IH.
Qed.

Lemma digit_is_digit z : 0 <= z < 10 -> is_digit (Fmt.digit z) = true.
Proof.
  intros Hz. unfold is_digit, Fmt.digit.
  rewrite nat_ascii_embedding by lia.
  apply andb_true_iff. split; [apply Nat.leb_le|apply Nat.leb_le]; lia.
Qed.

Lemma two_decimals_fixed2 (pre : string) neg num den :
  two_decimals (pre ++ Fmt.fixed2 neg num den ++ Fmt.newline) = true.
Proof.
  unfold two_decimals, Fmt.fixed2. cbn zeta.
  set (k := Fmt.round_half_even (100 * num) den).
  rewrite !list_ascii_of_string_app. cbn [list_ascii_of_string Fmt.newline].
  rewrite !rev_app_distr. cbn [rev app].
  rewrite !digit_is_digit by (apply Z.mod_pos_bound; lia).
  rewrite !bool_decide_eq_true_2 by done. reflexivity.
Qed.

(** [%.2f] of a finite value ends with a point and two digits. *)
Lemma two_decimals_f2 (pre : string) f :
  GoFloat.is_finite f = true ->
  two_decimals (pre ++ Fmt.f2 f ++ Fmt.newline) = true.
Proof.
  unfold GoFloat.is_finite, Fmt.f2.
  destruct (Prim2SF f) as [s|s| |s m e]; try discriminate; intros _.
  - apply two_decimals_fixed2.
  - destruct (0 <=? e); apply two_decimals_fixed2.
Qed.

Section OneShot.

Context {Color : Type}.
Variable io : float -> Z.
Variable fl : flags.
Variable ty : typer Color.
Variable content : nat -> list text.
Variable tmo : Z.

(** In one-shot mode the first natural run ends the program. *)
Lemma loop_one_shot_exit pre : ∀ r post rs calls evs,
  oneShotMode fl = true -> Forall other pre -> natural r ->
  let run := main_loop io fl ty content tmo rs calls (pre ++ r :: post) evs in
  status run = Exited 0 ∧ results run = rs ++ [stats io r] ∧
  length (starts_of (trace run)) = S (length pre).
Proof.
  induction pre as [|p pre IH]; intros r post rs calls evs Hone Hpre Hn run;
    subst run.
  - cbn [app]. rewrite loop_natural by done. cbn zeta. rewrite Hone.
    rewrite trace_emit, starts_of_start, starts_of_exit. done.
  - apply Forall_cons in Hpre as [Hp Hpre]. cbn [app].
    rewrite loop_other by done.
    rewrite trace_emit, starts_of_start. cbn [emit status results length].
    destruct (IH r post rs (S calls) evs Hone Hpre Hn) as (-> & -> & ->).
    done.
Qed.

End OneShot.

(** C9, as the code has it. When the program is left through [exit] and
    CSV mode is on, what was printed to stdout is one line per entry of
    the log, in the order of the log, which is the order in which the
    natural runs completed; each line is [wpm], [cpm] and the accuracy
    under the verbs [%d,%d,%.2f]: two integers and, when the accuracy is a
    finite number, a number with exactly two decimals. When CSV mode is
    off nothing is printed. In one-shot mode no report screen is shown,
    and the first run that ends naturally is the last one. *)
Theorem csv_and_one_shot {Color} io fl (ty : typer Color) content tmo
    rs calls starts evs :
  let run := main_loop io fl ty content tmo rs calls starts evs in
  (∀ code, status run = Exited code ->
     stdout_of (trace run) =
     if csvMode fl then map csv_line (results run) else []) ∧
  (∃ k, (k <= length starts)%nat ∧
        results run = rs ++ map (stats io) (filter natural (take k starts))) ∧
  (∀ res, csv_line res =
          (Fmt.d (wpm res) ++ "," ++ Fmt.d (cpm res) ++ ","
             ++ Fmt.f2 (accuracy res) ++ Fmt.newline)%string ∧
          (GoFloat.is_finite (accuracy res) = true ->
           two_decimals (csv_line res) = true)) ∧
  (oneShotMode fl = true ->
     reports_of (trace run) = [] ∧
     ∀ pre r post, starts = pre ++ r :: post -> Forall other pre -> natural r ->
       status run = Exited 0 ∧ results run = rs ++ [stats io r] ∧
       length (starts_of (trace run)) = S (length pre)).
Proof.
  intros run. subst run. split; [|split; [|split]].
  - intros code Hst. rewrite loop_stdout, Hst. reflexivity.
  - apply loop_results.
  - intros res. split; [reflexivity|]. intros Hfin. unfold csv_line.
    etransitivity; [|apply (two_decimals_f2
      (Fmt.d (wpm res) ++ "," ++ Fmt.d (cpm res) ++ ",")%string _ Hfin)].
    f_equal. by rewrite !string_app_assoc.
  - intros Hone. split; [by apply loop_one_shot_reports|].
    intros pre r post -> Hpre Hn. by apply loop_one_shot_exit.
Qed.


Lemma csv_and_one_shot_witness :
  let run :=
    main_loop Sample.io (parse Sample.csv_one_shot) Sample.ty Sample.content (-1)
      [] 0 [Sample.restarted_run; Sample.good_run; Sample.good_run] [] in
  status run = Exited 0 ∧
  results run = [] ++ [stats Sample.io Sample.good_run] ∧
  length (starts_of (trace run)) = 2%nat.
Proof.
  refine (proj2 (proj2 (proj2 (proj2
    (csv_and_one_shot Sample.io (parse Sample.csv_one_shot) Sample.ty
       Sample.content (-1) [] 0
       [Sample.restarted_run; Sample.good_run; Sample.good_run] []))) eq_refl)
    [Sample.restarted_run] Sample.good_run [Sample.good_run] eq_refl _ eq_refl).
  repeat constructor; vm_compute; discriminate.
Defined.

(** C9, as stated, fails for a run without keystrokes: its line carries
    [NaN] where a number with two decimals is claimed. *)
Lemma csv_line_without_decimals :
  let run :=
    main_loop Sample.io (parse Sample.csv_one_shot) Sample.ty Sample.content (-1)
      [] 0 [Sample.idle_run] [] in
  status run = Exited 0 ∧
  stdout_of (trace run) = [("0,0,NaN" ++ Fmt.newline)%string] ∧
  Forall (fun line => two_decimals line = false) (stdout_of (trace run)).
Proof. vm_compute. repeat constructor. Qed.

(** ** [main]: what every run is started with (C5, C6, C10) *)

Section MainFacts.

Context {Color : Type}.
Variable newTcellColor : string -> Color.
Variable themes : gmap string (gmap string string).
Variable wordWrap : text -> Z -> text.
Variable randomText : nat -> Z -> Z -> text.
Variable io : float -> Z.

Local Abbreviation main' := (main newTcellColor themes wordWrap randomText io).
Local Abbreviation resolve := (resolve_colors newTcellColor themes).

Lemma configured_palette fl (cs : colors Color) : palette (configured fl cs) = cs.
Proof. unfold configured. by destruct (noSkip fl), cs. Qed.

Lemma configured_skip fl (cs : colors Color) : SkipWord (configured fl cs) = negb (noSkip fl).
Proof. unfold configured. by destruct (noSkip fl). Qed.

(** Either [main] never reaches the loop, and no run is started, or it
    runs the loop with the engine and the timeout fixed before it. *)
Lemma main_cases c e :
  starts_of (trace (main' c e)) = [] ∨
  ∃ content cs,
    listFlag (parse c) ≠ "themes"%string ∧
    contentFn wordWrap randomText (parse c) (stdin e) = Some content ∧
    resolve (readConfig (ttrc e)) (themeName (parse c)) = Some cs ∧
    main' c e =
    main_loop io (parse c) (configured (parse c) cs) content
      (start_timeout (timeout (parse c))) [] 0 (starts e) (events e).
Proof.
  unfold main.
  destruct (decide (listFlag (parse c) = "themes"%string)) as [|Hl]; [by left|].
  destruct (contentFn _ _ _ _) as [content|] eqn:Hc; [|by left].
  destruct (resolve_colors _ _ _ _) as [cs|] eqn:Hr; [|by left].
  destruct (screen_ok e); [|by left].
  right. exists content, cs. done.
Qed.

Lemma main_starts c e :
  Forall (fun s =>
            s.2 = start_timeout (timeout (parse c)) ∧
            ∃ cs, resolve (readConfig (ttrc e)) (themeName (parse c)) = Some cs ∧
                  s.1.1 = configured (parse c) cs)
    (starts_of (trace (main' c e))).
Proof.
  destruct (main_cases c e) as [->|(content & cs & _ & _ & Hr & ->)];
    [constructor|].
  eapply Forall_impl; [apply loop_starts|].
  intros [[ty cont] t] [Hty Ht]. cbn in *. subst. eauto.
Qed.

End MainFacts.


(** C5, as the code has it. The timeout is fixed once, before the loop,
    and every call of [typer.Start] gets that same value: -1 (no limit)
    when [-t] is absent; the number of nanoseconds, [t * 1e9], when [-t]
    gives a number of seconds [t] with [0 < t <= 9223372036], the largest
    for which the product fits an [int]. *)
Theorem timeout_of_every_run {Color} (newTcellColor : string -> Color) themes
    wordWrap randomText io c e :
  let run := main newTcellColor themes wordWrap randomText io c e in
  Forall (fun s => s.2 = start_timeout (timeout (parse c)))
    (starts_of (trace run)) ∧
  (opt_t c = None -> start_timeout (timeout (parse c)) = -1) ∧
  (∀ t, opt_t c = Some t -> 0 < t <= 9223372036 ->
        start_timeout (timeout (parse c)) = t * 1000000000).
Proof.
  intros run. split; [|split].
  - eapply Forall_impl; [apply main_starts|]. by intros s [Hs _].
  - intros Ht. cbn [parse timeout]. by rewrite Ht.
  - intros t Ht Hr. cbn [parse timeout]. rewrite Ht.
    change (default (-1) (Some t)) with t.
    unfold start_timeout. rewrite decide_True by lia.
    apply wrap_in_range. unfold GoInt.min_int, GoInt.max_int. lia.
Qed.

Lemma timeout_of_every_run_witness :
  start_timeout (timeout (parse (Sample.with_timeout 30))) = 30 * 1000000000.
Proof.
  refine (proj2 (proj2 (timeout_of_every_run (fun s : string => s) Sample.themes
            Sample.wordWrap Sample.randomText Sample.io (Sample.with_timeout 30)
            (Sample.at_terminal [] []))) 30 eq_refl _).
  lia.
Defined.

(** C5, as stated, fails for large timeouts: the multiplication wraps
    around, and the engine is handed a negative number. *)
Lemma timeout_wraps_around :
  let run :=
    Sample.main (Sample.with_timeout 9223372037)
      (Sample.at_terminal [Sample.quit_run] []) in
  0 < 9223372037 ∧
  map snd (starts_of (trace run)) = [-9223372036709551616] ∧
  -9223372036709551616 ≠ 9223372037 * 1000000000.
Proof. vm_compute. repeat split; discriminate. Qed.

(** C6. A new engine has [SkipWord] set; [main] clears it exactly when
    [-noskip] is given, before the loop, and every call of [typer.Start],
    from the first on, is made on an engine with that same setting. *)
Theorem skip_word_of_every_run {Color} (newTcellColor : string -> Color) themes
    wordWrap randomText io c e :
  (∀ fg bg hi hi2 hi3 err : Color,
     SkipWord (NewTyper fg bg hi hi2 hi3 err) = true) ∧
  Forall (fun s => SkipWord s.1.1 = negb (opt_noskip c))
    (starts_of (trace (main newTcellColor themes wordWrap randomText io c e))) ∧
  (∀ s, s ∈ starts_of (trace (main newTcellColor themes wordWrap randomText io c e)) ->
     (SkipWord s.1.1 = false ↔ opt_noskip c = true)).
Proof.
  assert (Hall : Forall (fun s : typer Color * list text * Z =>
                           SkipWord s.1.1 = negb (opt_noskip c))
                   (starts_of (trace (main newTcellColor themes wordWrap
                                        randomText io c e)))).
  { eapply Forall_impl; [apply main_starts|].
    intros s [_ (cs & _ & ->)]. by rewrite configured_skip. }
  split; [done|]. split; [exact Hall|].
  intros s Hs. rewrite Forall_forall in Hall. rewrite (Hall s Hs).
  by destruct (opt_noskip c).
Qed.

Lemma skip_word_of_every_run_witness :
  Forall (fun s => SkipWord s.1.1 = negb (opt_noskip Sample.no_flags))
    (starts_of (trace (Sample.main Sample.no_flags
                         (Sample.at_terminal [Sample.quit_run] [])))).
Proof.
  exact (proj1 (proj2 (skip_word_of_every_run (fun s : string => s)
           Sample.themes Sample.wordWrap Sample.randomText Sample.io
           Sample.no_flags (Sample.at_terminal [Sample.quit_run] [])))).
Defined.

(** C7. A run that the engine finishes with the natural/timeout key
    reports an elapsed time of at least one tick, whatever the two clock
    readings are; so the [t] the driver divides by is not zero. *)
Theorem finished_run_takes_time nerrs ncorrect started finished :
  let r := finish_run nerrs ncorrect started finished in
  natural r ∧ 1 <= elapsed r ∧ elapsed r ≠ 0 ∧
  (started < finished -> elapsed r = finished - started).
Proof.
  intros r. subst r. unfold finish_run, run_duration, natural.
  cbn [exitKey elapsed]. repeat split; lia.
Qed.

Lemma finished_run_takes_time_witness :
  elapsed (finish_run 5 45 1000 30000001000) = 30000001000 - 1000.
Proof.
  refine (proj2 (proj2 (proj2 (finished_run_takes_time 5 45 1000 30000001000))) _).
  lia.
Defined.

(** C10. Once [main] gets to the colours (it is not asked to list the
    themes, and stdin could be read):
    - a theme named on the command line that does not exist makes the
      program print the error message and exit with status 1;
    - a theme named on the command line that exists gives the six
      colours, whatever the configuration file holds;
    - without a theme on the command line, the base theme is the one the
      configuration file's [theme] entry names, if it exists, and the
      default theme otherwise; each of the six colours is then the
      configuration file's entry for it, if any, and the base theme's
      otherwise. *)
Theorem theme_precedence {Color} (newTcellColor : string -> Color) themes
    wordWrap randomText io c e :
  let run := main newTcellColor themes wordWrap randomText io c e in
  let name := themeName (parse c) in
  let cfg := readConfig (ttrc e) in
  listFlag (parse c) ≠ "themes"%string -> stdin e ≠ PipedError ->
  (name ≠ ""%string -> themes !! name = None ->
     run = emit (ObsStderr (invalid_theme name)) (stop [] (Exited 1))) ∧
  (∀ theme, name ≠ ""%string -> themes !! name = Some theme ->
     (∀ cfg', resolve_colors newTcellColor themes cfg' name
              = Some (theme_colors newTcellColor theme)) ∧
     Forall (fun s => palette s.1.1 = theme_colors newTcellColor theme)
       (starts_of (trace run))) ∧
  (name = ""%string ->
     let fallback := default ∅ (themes !! "default"%string) in
     let base :=
       match cfg !! "theme"%string with
       | Some t => default fallback (themes !! t)
       | None => fallback
       end in
     let color := configured_color newTcellColor cfg base in
     Forall (fun s => palette s.1.1 =
                      {| bgcol := color "bgcol"%string;
                         fgcol := color "fgcol"%string;
                         hicol := color "hicol"%string;
                         hicol2 := color "hicol2"%string;
                         hicol3 := color "hicol3"%string;
                         errcol := color "errcol"%string |})
       (starts_of (trace run))).
Proof.
  intros run name cfg Hlist Hin. subst run name cfg. split; [|split].
  - intros Hname Hnone. unfold main.
    rewrite decide_False by done.
    destruct (contentFn _ _ _ _) as [content|] eqn:Hc.
    2:{ unfold contentFn in Hc. destruct (stdin e); try done.
        by destruct (rawMode _). }
    unfold resolve_colors. rewrite decide_True by done. by rewrite Hnone.
  - intros theme Hname Hsome.
    assert (Hres : ∀ cfg', resolve_colors newTcellColor themes cfg'
                             (themeName (parse c))
                           = Some (theme_colors newTcellColor theme)).
    { intros cfg'. unfold resolve_colors. rewrite decide_True by done.
      by rewrite Hsome. }
    split; [exact Hres|].
    eapply Forall_impl; [apply main_starts|].
    intros s [_ (cs & Hcs & ->)]. rewrite Hres in Hcs.
    injection Hcs as <-. apply configured_palette.
  - intros Hname fallback base color.
    eapply Forall_impl; [apply main_starts|].
    intros s [_ (cs & Hcs & ->)]. rewrite configured_palette.
    unfold resolve_colors in Hcs. rewrite decide_False in Hcs by (by intros []).
    injection Hcs as <-.
    assert (Hbase : base_theme themes (readConfig (ttrc e)) = base).
    { unfold base_theme, base, fallback.
      destruct (readConfig (ttrc e) !! "theme"%string) as [t|]; [|done].
      by destruct (themes !! t). }
    rewrite Hbase. unfold color, configured_color, override, theme_colors, index.
    cbn [bgcol fgcol hicol hicol2 hicol3 errcol].
    f_equal; by destruct (readConfig (ttrc e) !! _).
Qed.

Lemma theme_precedence_witness :
  Sample.main (Sample.with_theme "neon") (Sample.at_terminal [] [])
  = emit (ObsStderr (invalid_theme "neon")) (stop [] (Exited 1)).
Proof.
  refine (proj1 (theme_precedence (fun s : string => s) Sample.themes
            Sample.wordWrap Sample.randomText Sample.io
            (Sample.with_theme "neon") (Sample.at_terminal [] []) _ _) _ _).
  - vm_compute. discriminate.
  - discriminate.
  - vm_compute. discriminate.
  - vm_compute. reflexivity.
Defined.


(** ** Paragraphs of the piped text (C4) *)

Section Paragraphs.

Abbreviation plain_head x := (head x ≠ Some nl).

(** *** The regular expression, step by step *)

Lemma collapse_plain b c s :
  c ≠ nl -> collapse_from b (c :: s) = c :: collapse_from false s.
Proof.
  intros Hc. destruct b; cbn [collapse_from].
  - by rewrite decide_False.
  - destruct s as [|y s]; [done|].
    rewrite decide_False; [done|]. by intros [? _].
Qed.

Lemma collapse_single y s :
  y ≠ nl ->
  collapse_from false (nl :: y :: s) = nl :: collapse_from false (y :: s).
Proof.
  intros Hy. cbn [collapse_from]. rewrite decide_False; [done|].
  by intros [_ ?].
Qed.

Lemma collapse_double s :
  collapse_from false (nl :: nl :: s) = nl :: nl :: collapse_from true s.
Proof. cbn [collapse_from]. by rewrite decide_True. Qed.

Lemma collapse_in_match_nl s :
  collapse_from true (nl :: s) = collapse_from true s.
Proof. cbn [collapse_from]. by rewrite decide_True. Qed.

Lemma collapse_in_match_run k s :
  collapse_from true (repeat nl k ++ s) = collapse_from true s.
Proof.
  induction k as [|k IH]; [done|].
  cbn [repeat app]. by rewrite collapse_in_match_nl.
Qed.

Lemma collapse_in_match_plain s :
  plain_head s -> collapse_from true s = collapse_from false s.
Proof.
  destruct s as [|c s]; [done|]. intros Hc.
  assert (c ≠ nl) by (intros ->; by apply Hc).
  by rewrite !collapse_plain.
Qed.

(** A run of newlines in front of anything else shrinks to at most
    two. *)
Lemma collapse_run k s :
  plain_head s ->
  collapse_from false (repeat nl k ++ s)
  = repeat nl (k `min` 2) ++ collapse_from false s.
Proof.
  intros Hs. destruct k as [|[|k]].
  - done.
  - cbn [repeat app Nat.min]. destruct s as [|y s]; [done|].
    apply collapse_single. intros ->. by apply Hs.
  - cbn [repeat app]. rewrite collapse_double, collapse_in_match_run.
    rewrite collapse_in_match_plain by done.
    by replace (S (S k) `min` 2)%nat with 2%nat by lia.
Qed.

(** *** Tight texts *)

Lemma tight_cons_plain c p : c ≠ nl -> tight (c :: p) = tight p.
Proof. intros Hc. cbn [tight]. by rewrite decide_False. Qed.

Lemma tight_cons_nl p :
  tight (nl :: p) = true -> plain_head p ∧ p ≠ [] ∧ tight p = true.
Proof.
  cbn [tight]. rewrite decide_True by done.
  destruct p as [|y p]; [done|]. intros [Hy Hp]%andb_true_iff.
  apply bool_decide_eq_true in Hy. repeat split; try done.
  cbn. by intros [= ->].
Qed.

Lemma collapse_tight p : ∀ s,
  tight p = true ->
  collapse_from false (p ++ s) = p ++ collapse_from false s.
Proof.
  induction p as [|c p IH]; intros s Hp; [done|].
  destruct (decide (c = nl)) as [->|Hc].
  - apply tight_cons_nl in Hp as (Hh & Hne & Hp).
    destruct p as [|y p]; [done|].
    assert (y ≠ nl) by (intros ->; by apply Hh).
    cbn [app]. rewrite collapse_single by done.
    f_equal. apply (IH s Hp).
  - rewrite tight_cons_plain in Hp by done.
    cbn [app]. rewrite collapse_plain by done. f_equal. by apply IH.
Qed.

Lemma paragraph_inv p :
  paragraph p = true -> plain_head p ∧ p ≠ [] ∧ tight p = true.
Proof.
  destruct p as [|c p]; [done|]. unfold paragraph.
  intros [Hc Hp]%andb_true_iff. apply bool_decide_eq_true in Hc.
  repeat split; try done. cbn. by intros [= ->].
Qed.

(** A non-empty tight text ends with a character that is not a
    newline. *)
Lemma tight_last p :
  tight p = true -> p ≠ [] -> ∃ q c, p = q ++ [c] ∧ c ≠ nl.
Proof.
  induction p as [|x p IH]; [done|]. intros Hp _.
  destruct p as [|y p].
  - exists [], x. split; [done|]. intros ->. by apply tight_cons_nl in Hp as (_ & ? & _).
  - assert (Hp' : tight (y :: p) = true).
    { destruct (decide (x = nl)) as [->|Hx].
      - by apply tight_cons_nl in Hp as (_ & _ & ?).
      - by rewrite tight_cons_plain in Hp. }
    destruct (IH Hp') as (q & c & Hq & Hc); [done|].
    exists (x :: q), c. split; [|done]. cbn [app]. by rewrite <- Hq.
Qed.

(** *** Texts woven from paragraphs *)

Lemma joined_plain_head p0 rest :
  paragraph p0 = true -> plain_head (joined p0 rest).
Proof.
  intros (Hh & Hne & _)%paragraph_inv. unfold joined.
  by destruct p0.
Qed.

Lemma joined_last p0 rest :
  well_woven p0 rest -> ∃ q c, joined p0 rest = q ++ [c] ∧ c ≠ nl.
Proof.
  revert p0. induction rest as [|[g p] rest IH]; intros p0 [Hp0 Hrest].
  - unfold joined. cbn [flat_map]. rewrite app_nil_r.
    apply paragraph_inv in Hp0 as (_ & Hne & Ht). by apply tight_last.
  - apply Forall_cons in Hrest as [[_ Hp] Hrest].
    destruct (IH p (conj Hp Hrest)) as (q & c & Hq & Hc).
    exists (p0 ++ nl :: nl :: q), c. split; [|done].
    unfold joined in *. cbn [flat_map fst snd].
    rewrite <- !app_assoc. cbn [app]. by rewrite <- Hq.
Qed.

Lemma collapse_body p0 rest trail :
  well_woven p0 rest ->
  collapse_from false (p0 ++ flat_map after_gap rest ++ repeat nl trail)
  = joined p0 rest ++ repeat nl (trail `min` 2).
Proof.
  revert p0. induction rest as [|[g p] rest IH]; intros p0 [Hp0 Hrest].
  - unfold joined. cbn [flat_map app]. rewrite app_nil_r.
    apply paragraph_inv in Hp0 as (_ & _ & Ht).
    rewrite collapse_tight by done. f_equal.
    rewrite <- (app_nil_r (repeat nl trail)), collapse_run by done.
    cbn. by rewrite !app_nil_r.
  - apply Forall_cons in Hrest as [[Hg Hp] Hrest]. cbn [fst snd] in Hg, Hp.
    pose proof Hp0 as (_ & _ & Ht)%paragraph_inv.
    pose proof Hp as (Hh & Hne & _)%paragraph_inv.
    unfold joined. cbn [flat_map]. unfold after_gap at 1. cbn [fst snd].
    rewrite collapse_tight by done. rewrite <- !app_assoc.
    rewrite collapse_run by (by destruct p).
    rewrite (IH p (conj Hp Hrest)). unfold joined.
    replace (g `min` 2)%nat with 2%nat by lia.
    cbn [repeat app]. by rewrite <- !app_assoc.
Qed.

Lemma collapse_woven lead p0 rest trail :
  well_woven p0 rest ->
  collapse_blank_lines (woven lead p0 rest trail)
  = repeat nl (lead `min` 2) ++ joined p0 rest ++ repeat nl (trail `min` 2).
Proof.
  intros Hw. unfold collapse_blank_lines, woven.
  rewrite collapse_run.
  - by rewrite collapse_body.
  - destruct Hw as [(Hh & Hne & _)%paragraph_inv _]. by destruct p0.
Qed.

(** *** Trimming *)

Lemma trim_left_run c k s :
  head s ≠ Some c -> trim_left c (repeat c k ++ s) = s.
Proof.
  intros Hs. induction k as [|k IH].
  - destruct s as [|x s]; [done|]. cbn [repeat app trim_left].
    rewrite decide_False; [done|]. intros ->. by apply Hs.
  - cbn [repeat app trim_left]. by rewrite decide_True.
Qed.

Lemma rev_repeat_nl (c : ascii) k : rev (repeat c k) = repeat c k.
Proof.
  induction k as [|k IH]; [done|].
  cbn [repeat rev]. rewrite IH. symmetry. apply repeat_cons.
Qed.

Lemma trim_right_run c k q x :
  x ≠ c -> trim_right c ((q ++ [x]) ++ repeat c k) = q ++ [x].
Proof.
  intros Hx. unfold trim_right.
  rewrite !rev_app_distr, rev_repeat_nl. cbn [rev app].
  rewrite trim_left_run by (cbn; by intros [= ->]).
  cbn [rev]. by rewrite rev_involutive.
Qed.

Lemma trim_run c lead trail s :
  head s ≠ Some c -> (∃ q x, s = q ++ [x] ∧ x ≠ c) ->
  trim c (repeat c lead ++ s ++ repeat c trail) = s.
Proof.
  intros Hs (q & x & -> & Hx). unfold trim.
  rewrite trim_left_run.
  - by apply trim_right_run.
  - by destruct q.
Qed.

Lemma trim_all c k : trim c (repeat c k) = [].
Proof.
  unfold trim. rewrite <- (app_nil_r (repeat c k)).
  by rewrite trim_left_run.
Qed.

(** *** Splitting *)

Lemma split2_gap p : ∀ s,
  tight p = true ->
  split2 nl nl (p ++ nl :: nl :: s) = p :: split2 nl nl s.
Proof.
  induction p as [|c p IH]; intros s Hp.
  - cbn [app split2]. by rewrite decide_True.
  - assert (Hp' : tight p = true).
    { destruct (decide (c = nl)) as [->|Hc].
      - by apply tight_cons_nl in Hp as (_ & _ & ?).
      - by rewrite tight_cons_plain in Hp. }
    cbn [app split2].
    destruct (p ++ nl :: nl :: s) as [|y r] eqn:Hr; [by destruct p|].
    rewrite decide_False.
    + rewrite <- Hr, IH by done. done.
    + intros [-> ->]. apply tight_cons_nl in Hp as (Hh & Hne & _).
      destruct p; [done|]. injection Hr as -> _. by apply Hh.
Qed.

Lemma split2_tight p : tight p = true -> split2 nl nl p = [p].
Proof.
  induction p as [|c p IH]; intros Hp; [done|].
  assert (Hp' : tight p = true).
  { destruct (decide (c = nl)) as [->|Hc].
    - by apply tight_cons_nl in Hp as (_ & _ & ?).
    - by rewrite tight_cons_plain in Hp. }
  cbn [split2]. destruct p as [|y r]; [done|].
  rewrite decide_False.
  - by rewrite IH.
  - intros [-> ->]. apply tight_cons_nl in Hp as (Hh & _ & _). by apply Hh.
Qed.

Lemma split2_joined p0 rest :
  well_woven p0 rest -> split2 nl nl (joined p0 rest) = p0 :: map snd rest.
Proof.
  revert p0. induction rest as [|[g p] rest IH]; intros p0 [Hp0 Hrest].
  - unfold joined. cbn [flat_map map]. rewrite app_nil_r.
    apply split2_tight. by apply paragraph_inv in Hp0 as (_ & _ & ?).
  - apply Forall_cons in Hrest as [[_ Hp] Hrest].
    apply paragraph_inv in Hp0 as (_ & _ & Ht).
    unfold joined. cbn [flat_map map fst snd]. cbn [app].
    rewrite split2_gap by done. f_equal. apply (IH p (conj Hp Hrest)).
Qed.

(** *** The paragraphs of a woven text, and of a blank one *)

Lemma no_cr_replace s : cr ∉ s -> replace cr [] s = s.
Proof.
  induction s as [|x s IH]; [done|]. intros Hs.
  apply not_elem_of_cons in Hs as [Hx Hs]. unfold replace in *.
  cbn [flat_map]. rewrite decide_False by done. cbn [app].
  by rewrite IH.
Qed.

Lemma paragraphs_woven b lead p0 rest trail :
  replace cr [] b = woven lead p0 rest trail -> well_woven p0 rest ->
  paragraphs b = p0 :: map snd rest.
Proof.
  intros Hb Hw. unfold paragraphs. rewrite Hb, collapse_woven by done.
  rewrite trim_run.
  - by apply split2_joined.
  - by apply joined_plain_head, Hw.
  - by apply joined_last.
Qed.

Lemma paragraphs_blank b k :
  replace cr [] b = repeat nl k -> paragraphs b = [[]].
Proof.
  intros Hb. unfold paragraphs, collapse_blank_lines. rewrite Hb.
  rewrite <- (app_nil_r (repeat nl k)), collapse_run by done.
  cbn [collapse_from]. rewrite app_nil_r, trim_all. done.
Qed.

(** *** Every text is blank or woven *)

Lemma woven_cons_nl lead p0 rest trail :
  nl :: woven lead p0 rest trail = woven (S lead) p0 rest trail.
Proof. reflexivity. Qed.

Lemma paragraph_cons c p :
  c ≠ nl -> tight p = true -> paragraph (c :: p) = true.
Proof.
  intros Hc Hp. unfold paragraph.
  rewrite bool_decide_eq_true_2 by done.
  by rewrite tight_cons_plain.
Qed.

Lemma tight_nl_paragraph p : paragraph p = true -> tight (nl :: p) = true.
Proof.
  intros (Hh & Hne & Ht)%paragraph_inv. cbn [tight].
  rewrite decide_True by done. destruct p as [|y p]; [done|].
  rewrite Ht, andb_true_r. apply bool_decide_eq_true_2.
  intros ->. by apply Hh.
Qed.

Lemma woven_exists s :
  (∃ k, s = repeat nl k) ∨
  (∃ lead p0 rest trail, s = woven lead p0 rest trail ∧ well_woven p0 rest).
Proof.
  induction s as [|c s IH]; [left; by exists 0%nat|].
  destruct (decide (c = nl)) as [->|Hc].
  - destruct IH as [[k ->]|(lead & p0 & rest & trail & -> & Hw)].
    + left. by exists (S k).
    + right. exists (S lead), p0, rest, trail. done.
  - right. destruct IH as [[k ->]|(lead & p0 & rest & trail & -> & Hw)].
    + exists 0%nat, [c], [], k. split; [done|]. split; [|constructor].
      by apply paragraph_cons.
    + destruct Hw as [Hp0 Hrest]. destruct lead as [|[|lead]].
      * exists 0%nat, (c :: p0), rest, trail. split; [done|].
        split; [|done]. apply paragraph_cons; [done|].
        by apply paragraph_inv in Hp0 as (_ & _ & ?).
      * exists 0%nat, (c :: nl :: p0), rest, trail. split; [done|].
        split; [|done]. apply paragraph_cons; [done|].
        by apply tight_nl_paragraph.
      * exists 0%nat, [c], ((S (S lead), p0) :: rest), trail.
        split.
        -- unfold woven. cbn [flat_map]. unfold after_gap at 2.
           cbn [fst snd repeat app]. by rewrite <- !app_assoc.
        -- split; [by apply paragraph_cons|].
           constructor; [|done]. cbn [fst snd]. split; [lia|done].
Qed.

(** [tight], spelled out on the text as a whole. *)
Lemma tight_spec p :
  tight p = true ↔
  (∀ a b, p ≠ a ++ nl :: nl :: b) ∧ (∀ q, p ≠ q ++ [nl]).
Proof.
  induction p as [|x p IH].
  - split; [|done]. intros _.
    split; [intros [|??] ?|intros [|??]]; discriminate.
  - split.
    + intros Hp.
      assert (Hp' : tight p = true).
      { destruct (decide (x = nl)) as [->|Hx].
        - by apply tight_cons_nl in Hp as (_ & _ & ?).
        - by rewrite tight_cons_plain in Hp. }
      apply IH in Hp' as [Hmid Hend]. split.
      * intros [|a0 a] b0 Heq; injection Heq as -> Heq.
        -- apply tight_cons_nl in Hp as (Hh & _ & _). apply Hh.
           by rewrite Heq.
        -- by apply (Hmid a b0).
      * intros [|q0 q] Heq; injection Heq as -> Heq.
        -- apply tight_cons_nl in Hp as (_ & Hne & _). done.
        -- by apply (Hend q).
    + intros [Hmid Hend]. cbn [tight]. apply andb_true_iff. split.
      * destruct (decide (x = nl)) as [->|Hx]; [|done].
        destruct p as [|y p]; [by destruct (Hend [])|].
        apply bool_decide_eq_true_2. intros ->. by apply (Hmid [] p).
      * apply IH. split.
        -- intros a b0 ->. by apply (Hmid (x :: a) b0).
        -- intros q ->. by apply (Hend (x :: q)).
Qed.

End Paragraphs.

(** C4. Raw mode hands the whole piped input, as it is, to the engine
    as its single segment. Otherwise the input, carriage returns removed,
    is cut at its paragraph boundaries: it consists of leading newlines,
    the paragraphs, each separated from the next by a run of one or more
    blank lines (two or more newlines), and trailing newlines; the
    segments are those paragraphs, one each and in the order of the
    input, every one reflowed on its own. (A text without any paragraph,
    made of newlines only, gives the single empty paragraph.) *)
Theorem piped_text_segments (wordWrap : text -> Z -> text)
    (randomText : nat -> Z -> Z -> text) fl b :
  (rawMode fl = true ->
   ∃ content, contentFn wordWrap randomText fl (Piped b) = Some content ∧
              ∀ i, content i = [b]) ∧
  (rawMode fl = false ->
   ∃ content,
     contentFn wordWrap randomText fl (Piped b) = Some content ∧
     (∀ i, content i = map (reflow wordWrap (wrapSz fl)) (paragraphs b)) ∧
     (∃ lead p0 rest trail,
        replace cr [] b = woven lead p0 rest trail ∧
        Forall (fun gp => (2 <= gp.1)%nat) rest ∧
        (Forall (fun p => paragraph p = true) (p0 :: map snd rest) ∨
         p0 = [] ∧ rest = []) ∧
        paragraphs b = p0 :: map snd rest) ∧
     (∀ lead p0 rest trail,
        replace cr [] b = woven lead p0 rest trail ->
        Forall (fun gp => (2 <= gp.1)%nat) rest ->
        Forall (fun p => paragraph p = true) (p0 :: map snd rest) ->
        paragraphs b = p0 :: map snd rest)).
Proof.
  split; intros Hraw; unfold contentFn; rewrite Hraw; [by eexists|].
  eexists. split; [done|]. split; [done|]. split.
  - destruct (woven_exists (replace cr [] b))
      as [[k Hk]|(lead & p0 & rest & trail & Hb & Hw)].
    + exists k, [], [], 0%nat. rewrite (paragraphs_blank b k Hk).
      repeat split; try done.
      * unfold woven. cbn. by rewrite app_nil_r.
      * by right.
    + exists lead, p0, rest, trail.
      rewrite (paragraphs_woven b lead p0 rest trail Hb Hw).
      destruct Hw as [Hp0 Hrest]. repeat split; try done.
      * eapply Forall_impl; [exact Hrest|]. by intros gp [? _].
      * left. constructor; [done|]. apply Forall_fmap.
        eapply Forall_impl; [exact Hrest|]. by intros gp [_ ?].
  - intros lead p0 rest trail Hb Hgaps Hpars.
    apply (paragraphs_woven b lead p0 rest trail Hb).
    apply Forall_cons in Hpars as [Hp0 Hpars]. split; [done|].
    apply Forall_fmap in Hpars. rewrite Forall_forall in *.
    intros gp Hgp. split; [by apply Hgaps|by apply Hpars].
Qed.

Lemma piped_text_segments_witness :
  paragraphs Sample.letter
  = [Sample.str "Dear Sir," ++ nl :: Sample.str "thank you."; Sample.str "Yours"].
Proof.
  destruct (proj2 (piped_text_segments Sample.wordWrap Sample.randomText
                     (parse Sample.no_flags) Sample.letter) eq_refl)
    as (content & _ & _ & _ & Hall).
  apply (Hall 1%nat (Sample.str "Dear Sir," ++ nl :: Sample.str "thank you.")
           [(3%nat, Sample.str "Yours")] 2%nat).
  - vm_compute. reflexivity.
  - repeat constructor.
  - repeat constructor.
Defined.


(** * Further properties of the driver *)

(** ** The report screen *)

Lemma showReport_ignored ev evs : ignored ev -> showReport (ev :: evs) = showReport evs.
Proof.
  destruct ev as [key|]; [|done]. intros [He Hc]. cbn [showReport].
  by rewrite !decide_False.
Qed.

Lemma showReport_skips pre evs :
  Forall ignored pre -> showReport (pre ++ evs) = showReport evs.
Proof.
  induction 1 as [|ev pre Hev _ IH]; [done|].
  cbn [app]. by rewrite showReport_ignored.
Qed.

Lemma showReport_waiting evs : showReport evs = ReportWaiting ↔ Forall ignored evs.
Proof.
  induction evs as [|[key|] evs IH].
  - split; [constructor|done].
  - cbn [showReport].
    destruct (decide (key = KeyEscape)) as [->|He].
    { split; [done|]. intros [[? _] _]%Forall_cons. done. }
    destruct (decide (key = KeyCtrlC)) as [->|Hc].
    { split; [done|]. intros [[_ ?] _]%Forall_cons. done. }
    rewrite IH. split.
    + intros H. by constructor.
    + by intros [_ ?]%Forall_cons.
  - cbn [showReport]. rewrite IH. split.
    + intros H. by constructor.
    + by intros [_ ?]%Forall_cons.
Qed.

(** X1. The report screen is left by the first escape key (back to the
    loop, the later events still pending) or the first Ctrl-C (exit),
    whichever comes first; every event before it, key or not, is
    ignored; the screen keeps polling exactly when no such key comes. *)
Theorem report_screen_first_key pre rest :
  Forall ignored pre ->
  showReport (pre ++ EventKey KeyEscape :: rest) = ReportEscape rest ∧
  showReport (pre ++ EventKey KeyCtrlC :: rest) = ReportCtrlC ∧
  (∀ evs, showReport evs = ReportWaiting ↔ Forall ignored evs).
Proof.
  intros Hpre. rewrite !showReport_skips by done.
  split; [done|]. split; [done|]. apply showReport_waiting.
Qed.

Lemma report_screen_first_key_witness :
  showReport ([EventOther; EventKey 13; EventKey 113] ++ EventKey KeyEscape
                :: [EventKey KeyCtrlC])
  = ReportEscape [EventKey KeyCtrlC].
Proof.
  refine (proj1 (report_screen_first_key [EventOther; EventKey 13; EventKey 113]
                   [EventKey KeyCtrlC] _)).
  repeat constructor; vm_compute; discriminate.
Defined.

(** ** The loop as a whole *)

Section LoopTraces.

Context {Color : Type}.
Variable io : float -> Z.
Variable fl : flags.
Variable ty : typer Color.
Variable content : nat -> list text.
Variable tmo : Z.

Local Abbreviation loop := (main_loop io fl ty content tmo).
Local Abbreviation leave := (@exit Color fl).
Local Abbreviation started calls := (ObsStart ty (content calls) tmo).
Local Abbreviation report_of r :=
  (ObsReport (cpm (stats io r)) (wpm (stats io r)) (accuracy (stats io r))).

Lemma reports_of_start (t : typer Color) c m tr :
  reports_of (ObsStart t c m :: tr) = reports_of tr.
Proof. reflexivity. Qed.

Lemma reports_of_shown c w a (tr : list (obs Color)) :
  reports_of (ObsReport c w a :: tr) = (c, w, a) :: reports_of tr.
Proof. reflexivity. Qed.

Lemma results_emit (o : obs Color) r : results (emit o r) = results r.
Proof. reflexivity. Qed.

Lemma status_emit (o : obs Color) r : status (emit o r) = status r.
Proof. reflexivity. Qed.

Lemma trace_exit rs : trace (leave rs) = leaving fl rs.
Proof. unfold exit, leaving. cbn [trace]. by destruct (csvMode fl). Qed.

Lemma stdout_of_leaving rs :
  stdout_of (leaving (Color:=Color) fl rs)
  = if csvMode fl then map csv_line rs else [].
Proof. rewrite <- trace_exit. apply stdout_of_exit. Qed.

(** The runs of a trace are started with the successive values of
    [contentFn], one call per run. *)
Lemma loop_contents starts : ∀ rs calls evs,
  ∃ m, (1 <= m <= S (length starts))%nat ∧
       contents_of (trace (loop rs calls starts evs)) = map content (seq calls m).
Proof.
  unfold contents_of.
  induction starts as [|r starts IH]; intros rs calls evs.
  - exists 1%nat. split; [cbn; lia|done].
  - assert (Hleave : ∀ more,
              map (fun s : typer Color * list text * Z => s.1.2)
                (starts_of (ObsStart ty (content calls) tmo :: trace (leave more)))
              = map content (seq calls 1)).
    { intros more. by rewrite starts_of_start, starts_of_exit. }
    destruct (exit_key_cases r) as [Hn|[Hq|Ho]].
    + rewrite loop_natural by done. cbn zeta.
      destruct (oneShotMode fl).
      { exists 1%nat. split; [cbn; lia|]. rewrite trace_emit. apply Hleave. }
      rewrite !trace_emit, starts_of_start, starts_of_report.
      destruct (showReport evs) as [evs'| |].
      * destruct (IH (rs ++ [stats io r]) (S calls) evs') as (m & Hm & Hc).
        exists (S m). split; [cbn; lia|]. cbn [map seq]. by rewrite Hc.
      * exists 1%nat. split; [cbn; lia|]. by rewrite starts_of_exit.
      * exists 1%nat. split; [cbn; lia|done].
    + rewrite loop_quit by done. exists 1%nat. split; [cbn; lia|].
      rewrite trace_emit. apply Hleave.
    + rewrite loop_other by done. rewrite trace_emit, starts_of_start.
      destruct (IH rs (S calls) evs) as (m & Hm & Hc).
      exists (S m). split; [cbn; lia|]. cbn [map seq]. by rewrite Hc.
Qed.

(** A trace of the loop is what happened on the screen, followed, if
    the program was left, by what [exit] does. *)
Lemma loop_shape starts : ∀ rs calls evs,
  ∃ pre, Forall on_screen pre ∧
    trace (loop rs calls starts evs) =
    pre ++ match status (loop rs calls starts evs) with
           | Exited _ => leaving fl (results (loop rs calls starts evs))
           | _ => []
           end.
Proof.
  induction starts as [|r starts IH]; intros rs calls evs.
  - exists [ObsStart ty (content calls) tmo]. split; [by repeat constructor|done].
  - destruct (exit_key_cases r) as [Hn|[Hq|Ho]].
    + rewrite loop_natural by done. cbn zeta.
      destruct (oneShotMode fl).
      { exists [ObsStart ty (content calls) tmo].
        split; [by repeat constructor|].
        by rewrite trace_emit, status_emit, results_emit, trace_exit. }
      rewrite !trace_emit, !status_emit, !results_emit.
      destruct (showReport evs) as [evs'| |].
      * destruct (IH (rs ++ [stats io r]) (S calls) evs') as (pre & Hpre & ->).
        exists (started calls :: report_of r :: pre).
        split; [|done]. by repeat constructor.
      * exists [started calls; report_of r]. split; [by repeat constructor|].
        by rewrite trace_exit.
      * exists [started calls; report_of r]. split; [by repeat constructor|done].
    + rewrite loop_quit by done.
      exists [ObsStart ty (content calls) tmo].
      split; [by repeat constructor|].
      by rewrite trace_emit, status_emit, results_emit, trace_exit.
    + rewrite loop_other by done.
      rewrite trace_emit, status_emit, results_emit.
      destruct (IH rs (S calls) evs) as (pre & Hpre & ->).
      exists (started calls :: pre). split; [|done]. by repeat constructor.
Qed.

End LoopTraces.


(** X2. Ctrl-C on the report screen leaves the program with status 0
    and with the run just finished in the log: the trace is that run, its
    report, and [exit] on the log with the new entry, so with CSV mode on
    the last line printed is that of the run just finished. Events
    before the Ctrl-C that the screen ignores change nothing. *)
Theorem quit_from_report {Color} io fl (ty : typer Color) content tmo
    rs calls r starts pre rest :
  natural r -> oneShotMode fl = false -> Forall ignored pre ->
  let run :=
    main_loop io fl ty content tmo rs calls (r :: starts)
      (pre ++ EventKey KeyCtrlC :: rest) in
  status run = Exited 0 ∧
  results run = rs ++ [stats io r] ∧
  trace run =
    ObsStart ty (content calls) tmo
      :: ObsReport (cpm (stats io r)) (wpm (stats io r)) (accuracy (stats io r))
      :: leaving fl (rs ++ [stats io r]) ∧
  stdout_of (trace run) =
    if csvMode fl then map csv_line rs ++ [csv_line (stats io r)] else [].
Proof.
  intros Hn Hone Hpre run. subst run.
  rewrite loop_natural by done. cbn zeta. rewrite Hone.
  rewrite showReport_skips by done. cbn [showReport].
  rewrite decide_False by done. rewrite decide_True by done.
  rewrite !trace_emit, (trace_exit (Color:=Color)).
  repeat split.
  change (stdout_of (leaving (Color:=Color) fl (rs ++ [stats io r]))
          = if csvMode fl then map csv_line rs ++ [csv_line (stats io r)] else []).
  rewrite stdout_of_leaving. destruct (csvMode fl); [|done].
  by rewrite map_app.
Qed.

Lemma quit_from_report_witness :
  let run :=
    main_loop Sample.io (parse Sample.no_flags) Sample.ty Sample.content (-1)
      [] 0 [Sample.good_run] ([EventOther] ++ EventKey KeyCtrlC :: []) in
  status run = Exited 0 ∧
  results run = [] ++ [stats Sample.io Sample.good_run].
Proof.
  refine (let H := quit_from_report Sample.io (parse Sample.no_flags) Sample.ty
                     Sample.content (-1) [] 0 Sample.good_run [] [EventOther] []
                     eq_refl eq_refl _ in conj (proj1 H) (proj1 (proj2 H))).
  repeat constructor.
Defined.

(** X3. With report screens on (no [-o]), every entry added to the log
    is shown on a report screen exactly once, and nothing else is: the
    reports of an execution, in order, are the entries the log gained,
    in order. *)
Theorem reports_follow_log {Color} io fl (ty : typer Color) content tmo
    rs calls starts evs :
  oneShotMode fl = false ->
  let run := main_loop io fl ty content tmo rs calls starts evs in
  ∃ more, results run = rs ++ more ∧ reports_of (trace run) = map shown more.
Proof.
  intros Hone run. subst run. revert rs calls evs.
  induction starts as [|r starts IH]; intros rs calls evs.
  - exists []. cbn. by rewrite app_nil_r.
  - destruct (exit_key_cases r) as [Hn|[Hq|Ho]].
    + rewrite loop_natural by done. cbn zeta. rewrite Hone.
      rewrite !trace_emit, reports_of_start, reports_of_shown, !results_emit.
      destruct (showReport evs) as [evs'| |].
      * destruct (IH (rs ++ [stats io r]) (S calls) evs') as (more & -> & ->).
        exists (stats io r :: more). by rewrite <- app_assoc.
      * exists [stats io r]. by rewrite (reports_of_exit (Color:=Color)).
      * by exists [stats io r].
    + rewrite loop_quit by done.
      rewrite trace_emit, reports_of_start, results_emit.
      rewrite (reports_of_exit (Color:=Color)).
      exists []. by rewrite app_nil_r.
    + rewrite loop_other by done.
      rewrite trace_emit, reports_of_start, results_emit. by apply IH.
Qed.

Lemma reports_follow_log_witness :
  let run :=
    main_loop Sample.io (parse Sample.no_flags) Sample.ty Sample.content (-1)
      [] 0 [Sample.good_run; Sample.restarted_run; Sample.idle_run]
      [EventKey KeyEscape] in
  ∃ more, results run = [] ++ more ∧ reports_of (trace run) = map shown more.
Proof.
  exact (reports_follow_log Sample.io (parse Sample.no_flags) Sample.ty
           Sample.content (-1) [] 0
           [Sample.good_run; Sample.restarted_run; Sample.idle_run]
           [EventKey KeyEscape] eq_refl).
Defined.

(** X4. Every iteration of the loop calls [contentFn] exactly once: the
    runs of an execution are started with the values of the successive
    calls, none skipped and none used twice; there is at least one run
    and at most one more than the engine returned from. *)
Theorem each_run_draws_content {Color} io fl (ty : typer Color) content tmo
    rs calls starts evs :
  ∃ m, (1 <= m <= S (length starts))%nat ∧
       contents_of (trace (main_loop io fl ty content tmo rs calls starts evs))
       = map content (seq calls m).
Proof. apply loop_contents. Qed.

(** X5. A trace of the loop is screen activity only (runs and reports)
    up to the moment the program is left; if it is left, the screen is
    finalised first and the CSV lines of the whole log follow, and that
    is the end of the trace; the exit status is 0. As long as the
    program is not left nothing is finalised or printed. *)
Theorem screen_closed_before_output {Color} io fl (ty : typer Color) content tmo
    rs calls starts evs :
  let run := main_loop io fl ty content tmo rs calls starts evs in
  (status run = Exited 0 ∨ status run = Waiting) ∧
  ∃ pre, Forall on_screen pre ∧
         trace run = pre ++ match status run with
                            | Exited _ => leaving fl (results run)
                            | _ => []
                            end.
Proof. intros run. split; [apply loop_status|apply loop_shape]. Qed.

(** X6. Key events are read by report screens only: in one-shot mode,
    or when no run ends naturally, pending events have no influence on
    what the program does. *)
Theorem events_only_for_reports {Color} io fl (ty : typer Color) content tmo
    rs calls starts evs evs' :
  oneShotMode fl = true ∨ Forall (fun r => ¬ natural r) starts ->
  main_loop io fl ty content tmo rs calls starts evs
  = main_loop io fl ty content tmo rs calls starts evs'.
Proof.
  revert rs calls evs evs'.
  induction starts as [|r starts IH]; intros rs calls evs evs' Hcase; [done|].
  destruct (exit_key_cases r) as [Hn|[Hq|Ho]].
  - rewrite !loop_natural by done. cbn zeta.
    destruct Hcase as [->|Hall]; [done|].
    by apply Forall_cons in Hall as [? _].
  - by rewrite !loop_quit.
  - rewrite !loop_other by done. f_equal. apply IH.
    destruct Hcase as [?|Hall]; [by left|right].
    by apply Forall_cons in Hall as [_ ?].
Qed.

Lemma events_only_for_reports_witness :
  main_loop Sample.io (parse Sample.csv_one_shot) Sample.ty Sample.content (-1)
    [] 0 [Sample.restarted_run; Sample.good_run] [EventKey KeyCtrlC]
  = main_loop Sample.io (parse Sample.csv_one_shot) Sample.ty Sample.content (-1)
      [] 0 [Sample.restarted_run; Sample.good_run] [].
Proof.
  exact (events_only_for_reports Sample.io (parse Sample.csv_one_shot) Sample.ty
           Sample.content (-1) [] 0 [Sample.restarted_run; Sample.good_run]
           [EventKey KeyCtrlC] [] (or_introl eq_refl)).
Defined.


(** ** The ways through [main] *)

Lemma paragraphs_nonempty b : paragraphs b ≠ [].
Proof.
  destruct (woven_exists (replace cr [] b))
    as [[k Hk]|(lead & p0 & rest & trail & Hb & Hw)].
  - by rewrite (paragraphs_blank b k Hk).
  - by rewrite (paragraphs_woven b lead p0 rest trail Hb Hw).
Qed.

Section MainPaths.

Context {Color : Type}.
Variable newTcellColor : string -> Color.
Variable themes : gmap string (gmap string string).
Variable wordWrap : text -> Z -> text.
Variable randomText : nat -> Z -> Z -> text.
Variable io : float -> Z.

Local Abbreviation main' := (main newTcellColor themes wordWrap randomText io).
Local Abbreviation resolve := (resolve_colors newTcellColor themes).
Local Abbreviation content_of := (contentFn wordWrap randomText).

Local Abbreviation unknown_theme := (unknown_theme themes).

Lemma contentFn_none fl input : content_of fl input = None ↔ input = PipedError.
Proof.
  unfold contentFn. destruct input; [done| |done].
  by destruct (rawMode fl).
Qed.

Lemma resolve_none cfg name :
  resolve cfg name = None ↔ name ≠ ""%string ∧ themes !! name = None.
Proof.
  unfold resolve_colors. destruct (decide (name ≠ ""%string)) as [Hn|Hn].
  - destruct (themes !! name); [|done]. split; [done|]. by intros [_ ?].
  - split; [done|]. by intros [? _].
Qed.

(** The five ways through [main], in the order the code takes them. *)
Lemma main_paths c e :
  (listFlag (parse c) = "themes"%string ∧
   main' c e = emit (ObsThemes (dom themes)) (stop [] (Exited 0))) ∨
  (listFlag (parse c) ≠ "themes"%string ∧ stdin e = PipedError ∧
   main' c e = stop [] Panicked) ∨
  (listFlag (parse c) ≠ "themes"%string ∧ stdin e ≠ PipedError ∧
   unknown_theme c ∧
   main' c e = emit (ObsStderr (invalid_theme (themeName (parse c))))
                 (stop [] (Exited 1))) ∨
  (listFlag (parse c) ≠ "themes"%string ∧ stdin e ≠ PipedError ∧
   ¬ unknown_theme c ∧ screen_ok e = false ∧ main' c e = stop [] Panicked) ∨
  (listFlag (parse c) ≠ "themes"%string ∧ stdin e ≠ PipedError ∧
   ¬ unknown_theme c ∧ screen_ok e = true ∧
   ∃ content cs,
     content_of (parse c) (stdin e) = Some content ∧
     main' c e =
     main_loop io (parse c) (configured (parse c) cs) content
       (start_timeout (timeout (parse c))) [] 0 (starts e) (events e)).
Proof.
  unfold main, unknown_theme.
  destruct (decide (listFlag (parse c) = "themes"%string)) as [Hl|Hl];
    [by left|right].
  destruct (contentFn _ _ _ _) as [content|] eqn:Hc.
  2:{ left. apply contentFn_none in Hc. done. }
  right.
  assert (Hin : stdin e ≠ PipedError).
  { intros Hin. apply (contentFn_none (parse c)) in Hin. congruence. }
  destruct (resolve_colors _ _ _ _) as [cs|] eqn:Hr.
  2:{ left. apply resolve_none in Hr. done. }
  right.
  assert (Hk : ¬ (themeName (parse c) ≠ ""%string
                  ∧ themes !! themeName (parse c) = None)).
  { intros Hk. apply (resolve_none (readConfig (ttrc e))) in Hk. congruence. }
  destruct (screen_ok e); [right|left]; repeat split; try done.
  by exists content, cs.
Qed.

Lemma main_status c e :
  status (main' c e) = Exited 0 ∨ status (main' c e) = Exited 1 ∨
  status (main' c e) = Panicked ∨ status (main' c e) = Waiting.
Proof.
  destruct (main_paths c e)
    as [[_ ->]|[(_ & _ & ->)|[(_ & _ & _ & ->)|[(_ & _ & _ & _ & ->)
       |(_ & _ & _ & _ & content & cs & _ & ->)]]]]; auto.
  destruct (loop_status io (parse c) (configured (parse c) cs) content
              (start_timeout (timeout (parse c))) (starts e) [] 0%nat (events e))
    as [->| ->]; auto.
Qed.

Lemma exit_one_iff c e :
  status (main' c e) = Exited 1 ↔
  listFlag (parse c) ≠ "themes"%string ∧ stdin e ≠ PipedError ∧ unknown_theme c.
Proof.
  destruct (main_paths c e)
    as [[Hl ->]|[(Hl & Hin & ->)|[(Hl & Hin & Hk & ->)|[(Hl & Hin & Hk & Hs & ->)
       |(Hl & Hin & Hk & Hs & content & cs & _ & ->)]]]].
  - split; [done|]. by intros [? _].
  - split; [done|]. by intros (_ & ? & _).
  - done.
  - split; [done|]. by intros (_ & _ & ?).
  - split; [|by intros (_ & _ & ?)].
    destruct (loop_status io (parse c) (configured (parse c) cs) content
                (start_timeout (timeout (parse c))) (starts e) [] 0%nat (events e))
      as [->| ->]; done.
Qed.

Lemma panic_iff c e :
  status (main' c e) = Panicked ↔
  listFlag (parse c) ≠ "themes"%string ∧
  (stdin e = PipedError ∨ ¬ unknown_theme c ∧ screen_ok e = false).
Proof.
  destruct (main_paths c e)
    as [[Hl ->]|[(Hl & Hin & ->)|[(Hl & Hin & Hk & ->)|[(Hl & Hin & Hk & Hs & ->)
       |(Hl & Hin & Hk & Hs & content & cs & _ & ->)]]]].
  - split; [done|]. by intros [? _].
  - split; [|done]. intros _. split; [done|by left].
  - split; [done|]. intros [_ [?|[? _]]]; done.
  - split; [|done]. intros _. split; [done|by right].
  - split.
    + destruct (loop_status io (parse c) (configured (parse c) cs) content
                  (start_timeout (timeout (parse c))) (starts e) [] 0%nat (events e))
        as [->| ->]; done.
    + intros [_ [?|[_ ?]]]; [done|congruence].
Qed.

Lemma run_started_iff c e :
  contents_of (trace (main' c e)) ≠ [] ↔
  listFlag (parse c) ≠ "themes"%string ∧ stdin e ≠ PipedError ∧
  ¬ unknown_theme c ∧ screen_ok e = true.
Proof.
  destruct (main_paths c e)
    as [[Hl ->]|[(Hl & Hin & ->)|[(Hl & Hin & Hk & ->)|[(Hl & Hin & Hk & Hs & ->)
       |(Hl & Hin & Hk & Hs & content & cs & _ & ->)]]]].
  - split; [done|]. by intros [? _].
  - split; [done|]. by intros (_ & ? & _).
  - split; [done|]. by intros (_ & _ & ? & _).
  - split; [done|]. intros (_ & _ & _ & ?). congruence.
  - split; [done|]. intros _.
    destruct (loop_head io (parse c) (configured (parse c) cs) content
                (start_timeout (timeout (parse c))) [] 0%nat (starts e) (events e))
      as [tr ->].
    done.
Qed.

Lemma main_contents c e :
  contents_of (trace (main' c e)) = [] ∨
  ∃ content m,
    content_of (parse c) (stdin e) = Some content ∧
    contents_of (trace (main' c e)) = map content (seq 0 m).
Proof.
  destruct (main_paths c e)
    as [[Hl ->]|[(Hl & Hin & ->)|[(Hl & Hin & Hk & ->)|[(Hl & Hin & Hk & Hs & ->)
       |(Hl & Hin & Hk & Hs & content & cs & Hc & ->)]]]]; try by left.
  right. exists content.
  destruct (loop_contents io (parse c) (configured (parse c) cs) content
              (start_timeout (timeout (parse c))) (starts e) [] 0%nat (events e))
    as (m & _ & Hm).
  by exists m.
Qed.

End MainPaths.


(** X7. Once the flags are parsed, [main] calls [os.Exit(1)] for one
    reason only: a theme named with [-theme] that does not exist, and
    only when the themes are not being listed and stdin could be read.
    Every other call of [os.Exit] in the program is with status 0. *)
Theorem exit_status_one {Color} (newTcellColor : string -> Color) themes
    wordWrap randomText io c e :
  let run := main newTcellColor themes wordWrap randomText io c e in
  (∀ code, status run = Exited code -> code = 0 ∨ code = 1) ∧
  (status run = Exited 1 ↔
   listFlag (parse c) ≠ "themes"%string ∧ stdin e ≠ PipedError ∧
   unknown_theme themes c).
Proof.
  intros run. split; [|apply exit_one_iff].
  intros code Hcode.
  destruct (main_status newTcellColor themes wordWrap randomText io c e)
    as [H|[H|[H|H]]]; fold run in H; rewrite H in Hcode;
    injection Hcode as <- || discriminate Hcode; auto.
Qed.

Lemma exit_status_one_witness :
  status (Sample.main (Sample.with_theme "neon") (Sample.at_terminal [] []))
  = Exited 1.
Proof.
  apply (proj2 (exit_status_one (fun s : string => s) Sample.themes
                  Sample.wordWrap Sample.randomText Sample.io
                  (Sample.with_theme "neon") (Sample.at_terminal [] []))).
  repeat split; vm_compute; (discriminate || reflexivity).
Defined.

(** X8. [main] itself panics in two situations only, neither while
    listing themes: stdin is piped and cannot be read, or the theme is fine but
    the terminal screen cannot be set up. In both nothing has been done
    yet: no message, no run, an empty log. An unknown theme is reported
    before the screen is tried. *)
Theorem panic_cases {Color} (newTcellColor : string -> Color) themes
    wordWrap randomText io c e :
  let run := main newTcellColor themes wordWrap randomText io c e in
  (status run = Panicked ↔
   listFlag (parse c) ≠ "themes"%string ∧
   (stdin e = PipedError ∨ ¬ unknown_theme themes c ∧ screen_ok e = false)) ∧
  (status run = Panicked -> trace run = [] ∧ results run = []).
Proof.
  intros run. split; [apply panic_iff|]. subst run.
  destruct (main_paths newTcellColor themes wordWrap randomText io c e)
    as [[Hl ->]|[(Hl & Hin & ->)|[(Hl & Hin & Hk & ->)|[(Hl & Hin & Hk & Hs & ->)
       |(Hl & Hin & Hk & Hs & content & cs & _ & ->)]]]]; try done.
  intros Hp.
  destruct (loop_status io (parse c) (configured (parse c) cs) content
              (start_timeout (timeout (parse c))) (starts e) [] 0%nat (events e))
    as [H|H]; rewrite H in Hp; discriminate Hp.
Qed.

Lemma panic_cases_witness :
  let run :=
    Sample.main Sample.no_flags
      {| stdin := PipedError; ttrc := None; screen_ok := true;
         starts := []; events := [] |} in
  trace run = [] ∧ results run = [].
Proof.
  apply (proj2 (panic_cases (fun s : string => s) Sample.themes
                  Sample.wordWrap Sample.randomText Sample.io Sample.no_flags
                  {| stdin := PipedError; ttrc := None; screen_ok := true;
                     starts := []; events := [] |})).
  reflexivity.
Defined.

(** X9. The engine is started exactly when the themes are not being
    listed, stdin is a terminal or could be read, no unknown theme is
    named and the screen could be set up; from then on the program can
    only be left with status 0. *)
Theorem first_run_conditions {Color} (newTcellColor : string -> Color) themes
    wordWrap randomText io c e :
  let run := main newTcellColor themes wordWrap randomText io c e in
  (contents_of (trace run) ≠ [] ↔
   listFlag (parse c) ≠ "themes"%string ∧ stdin e ≠ PipedError ∧
   ¬ unknown_theme themes c ∧ screen_ok e = true) ∧
  (contents_of (trace run) ≠ [] ->
   status run = Exited 0 ∨ status run = Waiting).
Proof.
  intros run. split; [apply run_started_iff|]. subst run.
  destruct (main_paths newTcellColor themes wordWrap randomText io c e)
    as [[Hl ->]|[(Hl & Hin & ->)|[(Hl & Hin & Hk & ->)|[(Hl & Hin & Hk & Hs & ->)
       |(Hl & Hin & Hk & Hs & content & cs & _ & ->)]]]]; try done.
  intros _. apply loop_status.
Qed.

Lemma first_run_conditions_witness :
  let run := Sample.main Sample.no_flags (Sample.at_terminal [Sample.quit_run] []) in
  status run = Exited 0 ∨ status run = Waiting.
Proof.
  apply (proj2 (first_run_conditions (fun s : string => s) Sample.themes
                  Sample.wordWrap Sample.randomText Sample.io Sample.no_flags
                  (Sample.at_terminal [Sample.quit_run] []))).
  vm_compute. discriminate.
Defined.

(** X10. At a terminal every run gets one segment of random text, drawn
    anew for that run, of [-n] words (50 when absent) wrapped at [-w]
    columns (80 when absent); raw mode and the other flags play no part
    in it. *)
Theorem terminal_runs_random_text {Color} (newTcellColor : string -> Color)
    themes wordWrap randomText io c e :
  stdin e = Terminal ->
  ∃ m, contents_of (trace (main newTcellColor themes wordWrap randomText io c e))
       = map (fun i => [randomText i (default 50 (opt_n c)) (default 80 (opt_w c))])
           (seq 0 m).
Proof.
  intros Hin.
  destruct (main_contents newTcellColor themes wordWrap randomText io c e)
    as [->|(content & m & Hc & ->)]; [by exists 0%nat|].
  exists m. rewrite Hin in Hc. injection Hc as <-. done.
Qed.

Lemma terminal_runs_random_text_witness :
  ∃ m, contents_of (trace (Sample.main Sample.no_flags
                             (Sample.at_terminal [Sample.restarted_run] [])))
       = map (fun i => [Sample.randomText i 50 80]) (seq 0 m).
Proof.
  exact (terminal_runs_random_text (fun s : string => s) Sample.themes
           Sample.wordWrap Sample.randomText Sample.io Sample.no_flags
           (Sample.at_terminal [Sample.restarted_run] []) eq_refl).
Defined.

(** X11. With text piped in, stdin is read once and every run repeats
    the same segments: the whole input as one segment in raw mode, the
    reflowed paragraphs otherwise. *)
Theorem piped_runs_repeat {Color} (newTcellColor : string -> Color)
    themes wordWrap randomText io c e b :
  stdin e = Piped b ->
  ∃ m, contents_of (trace (main newTcellColor themes wordWrap randomText io c e))
       = repeat (if opt_raw c then [b]
                 else map (reflow wordWrap (default 80 (opt_w c))) (paragraphs b)) m.
Proof.
  intros Hin.
  destruct (main_contents newTcellColor themes wordWrap randomText io c e)
    as [->|(content & m & Hc & ->)]; [by exists 0%nat|].
  exists m. rewrite Hin in Hc. unfold contentFn in Hc. cbn [parse rawMode wrapSz] in Hc.
  generalize 0%nat. destruct (opt_raw c); injection Hc as <-;
    induction m as [|m IH]; intros i; cbn [seq map repeat]; by rewrite ?IH.
Qed.

Lemma piped_runs_repeat_witness :
  ∃ m, contents_of
         (trace (Sample.main Sample.no_flags
                   {| stdin := Piped Sample.letter; ttrc := None; screen_ok := true;
                      starts := [Sample.restarted_run]; events := [] |}))
       = repeat (map (reflow Sample.wordWrap 80) (paragraphs Sample.letter)) m.
Proof.
  exact (piped_runs_repeat (fun s : string => s) Sample.themes
           Sample.wordWrap Sample.randomText Sample.io Sample.no_flags
           {| stdin := Piped Sample.letter; ttrc := None; screen_ok := true;
              starts := [Sample.restarted_run]; events := [] |}
           Sample.letter eq_refl).
Defined.

(** X12. The engine is never started on nothing: in every mode, and for
    every input, also the empty one, each run gets at least one
    segment. *)
Theorem every_run_has_a_segment {Color} (newTcellColor : string -> Color)
    themes wordWrap randomText io c e :
  Forall (fun content => content ≠ [])
    (contents_of (trace (main newTcellColor themes wordWrap randomText io c e))).
Proof.
  destruct (main_contents newTcellColor themes wordWrap randomText io c e)
    as [->|(content & m & Hc & ->)]; [constructor|].
  apply Forall_fmap, Forall_forall. intros i _. cbn.
  unfold contentFn in Hc. destruct (stdin e) as [|b|]; [| |done].
  - by injection Hc as <-.
  - destruct (rawMode (parse c)); injection Hc as <-; [done|].
    intros Hnil%fmap_nil_inv. by apply (paragraphs_nonempty b).
Qed.


(** ** The configuration file *)

Section Config.

Lemma split_nonempty sep s : split sep s ≠ [].
Proof.
  destruct s as [|x s]; [done|]. cbn [split].
  destruct (decide (x = sep)); [done|]. by destruct (split sep s).
Qed.

Lemma push_app x ps qs : ps ≠ [] -> push x (ps ++ qs) = push x ps ++ qs.
Proof. by destruct ps. Qed.

(** Splitting a text that has a separator in the middle. *)
Lemma split_app sep a b :
  split sep (a ++ sep :: b) = split sep a ++ split sep b.
Proof.
  induction a as [|x a IH].
  - cbn [app split]. by rewrite decide_True.
  - cbn [app split]. rewrite IH. destruct (decide (x = sep)); [done|].
    apply push_app, split_nonempty.
Qed.

Lemma split_whole sep s : sep ∉ s -> split sep s = [s].
Proof.
  induction s as [|x s IH]; [done|]. intros [Hx Hs]%not_elem_of_cons.
  cbn [split]. rewrite decide_False by done. by rewrite IH.
Qed.

Lemma split_pieces sep s : Forall (fun p => sep ∉ p) (split sep s).
Proof.
  induction s as [|x s IH]; [repeat constructor; by apply not_elem_of_nil|].
  cbn [split]. destruct (decide (x = sep)) as [|Hx].
  - constructor; [apply not_elem_of_nil|done].
  - destruct (split sep s) as [|p ps]; cbn [push].
    + constructor; [|constructor]. rewrite not_elem_of_cons.
      split; [congruence|apply not_elem_of_nil].
    + apply Forall_cons in IH as [Hp Hps]. constructor; [|done].
      rewrite not_elem_of_cons. split; [congruence|done].
Qed.

Lemma split_n2_found sep k v :
  sep ∉ k -> split_n2 sep (k ++ sep :: v) = Some (k, v).
Proof.
  induction k as [|x k IH]; intros Hk.
  - cbn [app split_n2]. by rewrite decide_True.
  - apply not_elem_of_cons in Hk as [Hx Hk]. cbn [app split_n2].
    rewrite decide_False by done. by rewrite IH.
Qed.

Lemma split_n2_none sep s : sep ∉ s -> split_n2 sep s = None.
Proof.
  induction s as [|x s IH]; [done|]. intros [Hx Hs]%not_elem_of_cons.
  cbn [split_n2]. rewrite decide_False by done. by rewrite IH.
Qed.

(** What [strings.SplitN(s, sep, 2)] returns when it returns two
    parts. *)
Lemma split_n2_inv sep s k v :
  split_n2 sep s = Some (k, v) -> s = k ++ sep :: v ∧ sep ∉ k.
Proof.
  revert k. induction s as [|x s IH]; intros k; [done|]. cbn [split_n2].
  destruct (decide (x = sep)) as [->|Hx].
  - intros [= <- <-]. split; [done|apply not_elem_of_nil].
  - destruct (split_n2 sep s) as [[k' v']|]; [|done].
    intros [= <- <-]. destruct (IH k' eq_refl) as [-> Hk].
    split; [done|]. by apply not_elem_of_cons.
Qed.

(** *** [strings.Trim] *)

Lemma trim_left_spec c s :
  ∃ i, s = repeat c i ++ trim_left c s ∧ head (trim_left c s) ≠ Some c.
Proof.
  induction s as [|x s IH]; [by exists 0%nat|]. cbn [trim_left].
  destruct (decide (x = c)) as [->|Hx].
  - destruct IH as (i & Hs & Hh). exists (S i). split; [|done].
    cbn [repeat app]. by rewrite <- Hs.
  - exists 0%nat. split; [done|]. cbn. by intros [= ?].
Qed.

Lemma trim_right_spec c s :
  ∃ j, s = trim_right c s ++ repeat c j ∧ last (trim_right c s) ≠ Some c.
Proof.
  unfold trim_right. destruct (trim_left_spec c (rev s)) as (j & Hs & Hh).
  exists j. split.
  - rewrite <- (rev_involutive s), Hs at 1.
    by rewrite rev_app_distr, rev_repeat_nl.
  - destruct (trim_left c (rev s)) as [|x t]; [done|].
    cbn [rev]. rewrite last_snoc. cbn in Hh. done.
Qed.

(** The text without the [c]s at both ends. *)
Lemma trim_spec c s :
  ∃ i j, s = repeat c i ++ trim c s ++ repeat c j ∧
         head (trim c s) ≠ Some c ∧ last (trim c s) ≠ Some c.
Proof.
  unfold trim. destruct (trim_left_spec c s) as (i & Hs & Hh).
  destruct (trim_right_spec c (trim_left c s)) as (j & Ht & Hl).
  exists i, j. split; [by rewrite <- Ht|]. split; [|done].
  destruct (trim_right c (trim_left c s)) as [|x t] eqn:Hx; [done|].
  rewrite Ht in Hh. done.
Qed.

Lemma trim_subset c s x : x ∈ trim c s -> x ∈ s.
Proof.
  destruct (trim_spec c s) as (i & j & Hs & _). intros Hx.
  rewrite Hs. apply elem_of_app. right. apply elem_of_app. by left.
Qed.

(** *** [readConfig], line by line *)

Lemma readConfig_snoc b ln :
  nl ∉ ln ->
  readConfig (Some (b ++ nl :: ln)) = config_line (readConfig (Some b)) ln.
Proof.
  intros Hln. unfold readConfig.
  by rewrite split_app, (split_whole nl ln), foldl_snoc.
Qed.

Lemma config_line_union m m' ln :
  config_line (m ∪ m') ln = config_line m ln ∪ m'.
Proof.
  unfold config_line. destruct (split_n2 colon ln) as [[k v]|]; [|done].
  by rewrite insert_union_l.
Qed.

Lemma foldl_config_union lines : ∀ m,
  foldl config_line m lines = foldl config_line ∅ lines ∪ m.
Proof.
  induction lines as [|ln lines IH] using rev_ind; intros m.
  - cbn. by rewrite (left_id_L ∅ (∪)).
  - by rewrite !foldl_snoc, IH, config_line_union.
Qed.

Lemma config_line_clean m ln :
  nl ∉ ln -> map_Forall clean_entry m -> map_Forall clean_entry (config_line m ln).
Proof.
  intros Hln Hm. unfold config_line.
  destruct (split_n2 colon ln) as [[k v]|] eqn:Hs; [|done].
  apply split_n2_inv in Hs as [-> Hk].
  apply map_Forall_insert_2; [|done].
  unfold clean_entry. rewrite !list_ascii_of_string_of_list_ascii.
  destruct (trim_spec sp v) as (i & j & _ & Hh & Hl).
  repeat split; try done.
  - intros Hin. apply Hln, elem_of_app. by left.
  - intros Hin%trim_subset. apply Hln, elem_of_app. right. by right.
Qed.

Lemma readConfig_clean file : map_Forall clean_entry (readConfig file).
Proof.
  destruct file as [b|]; [|apply map_Forall_empty]. unfold readConfig.
  pose proof (split_pieces nl b) as Hlines.
  induction (split nl b) as [|ln lines IH] using rev_ind;
    [apply map_Forall_empty|].
  apply Forall_app in Hlines as [Hlines [Hln _]%Forall_cons].
  rewrite foldl_snoc. apply config_line_clean; [done|by apply IH].
Qed.

End Config.

(** X13. The last line of ~/.ttrc always takes effect. If it has a
    colon, the text before the first colon becomes a key (as it is, not
    trimmed) bound to the rest of the line without the spaces at its two
    ends (further colons belong to the value), whatever the lines above
    bound that key to, and every other entry stays; if it has no colon,
    the line is ignored. *)
Theorem config_last_line b k v junk :
  (colon ∉ k -> nl ∉ k -> nl ∉ v ->
   readConfig (Some (b ++ nl :: k ++ colon :: v))
   = <[string_of_list_ascii k := string_of_list_ascii (trim sp v)]>
       (readConfig (Some b))) ∧
  (colon ∉ junk -> nl ∉ junk ->
   readConfig (Some (b ++ nl :: junk)) = readConfig (Some b)).
Proof.
  split.
  - intros Hck Hnk Hnv. rewrite readConfig_snoc.
    + unfold config_line. by rewrite split_n2_found.
    + intros [?|Hin]%elem_of_app; [done|].
      by apply elem_of_cons in Hin as [?|?].
  - intros Hcj Hnj. rewrite readConfig_snoc by done.
    unfold config_line. by rewrite split_n2_none.
Qed.

Lemma config_last_line_witness :
  readConfig (Some (Sample.str "theme: paper" ++ nl :: Sample.str "theme"
                      ++ colon :: Sample.str "  default "))
  = <[string_of_list_ascii (Sample.str "theme")
      := string_of_list_ascii (trim sp (Sample.str "  default "))]>
      (readConfig (Some (Sample.str "theme: paper"))).
Proof.
  refine (proj1 (config_last_line (Sample.str "theme: paper") (Sample.str "theme")
                   (Sample.str "  default ") []) _ _ _);
    vm_compute; intros H;
    repeat (apply elem_of_cons in H as [H|H]; [discriminate H|]);
    by apply elem_of_nil in H.
Defined.

(** X14. Reading two configuration texts one after the other, joined by
    a newline, gives the entries of the second, and those of the first
    for the keys the second does not bind. *)
Theorem config_of_two_parts a b :
  readConfig (Some (a ++ nl :: b)) = readConfig (Some b) ∪ readConfig (Some a).
Proof.
  unfold readConfig. rewrite split_app, foldl_app.
  apply foldl_config_union.
Qed.

(** X15. Whatever the file holds, no key of the configuration contains a
    colon or a newline, and no value contains a newline or begins or ends
    with a space; without a readable file the configuration is empty. *)
Theorem config_entries_clean file k v :
  readConfig None = ∅ ∧
  (readConfig file !! k = Some v ->
   (colon ∉ list_ascii_of_string k) ∧ (nl ∉ list_ascii_of_string k) ∧
   (nl ∉ list_ascii_of_string v) ∧
   head (list_ascii_of_string v) ≠ Some sp ∧
   last (list_ascii_of_string v) ≠ Some sp).
Proof.
  split; [done|]. intros Hkv.
  exact (readConfig_clean file k v Hkv).
Qed.

Lemma config_entries_clean_witness :
  (colon ∉ list_ascii_of_string "bgcol") ∧ (nl ∉ list_ascii_of_string "bgcol") ∧
  (nl ∉ list_ascii_of_string "#10 20 30") ∧
  head (list_ascii_of_string "#10 20 30") ≠ Some sp ∧
  last (list_ascii_of_string "#10 20 30") ≠ Some sp.
Proof.
  apply (proj2 (config_entries_clean
                  (Some (Sample.str "theme:paper" ++ nl :: Sample.str "bgcol:  #10 20 30  "))
                  "bgcol" "#10 20 30")).
  vm_compute. reflexivity.
Defined.


(** ** The piped text *)

Section PipedText.

Lemma replace_app old new a b :
  replace old new (a ++ b) = replace old new a ++ replace old new b.
Proof. unfold replace. apply flat_map_app. Qed.

Lemma replace_cr_newlines k : replace cr [] (repeat nl k) = repeat nl k.
Proof.
  apply no_cr_replace. intros Hin%list_elem_of_In%repeat_spec.
  discriminate Hin.
Qed.

Lemma replace_cr_clean b : cr ∉ replace cr [] b.
Proof.
  induction b as [|x b IH]; [apply not_elem_of_nil|].
  unfold replace in *. cbn [flat_map].
  destruct (decide (x = cr)); [done|]. cbn [app].
  rewrite not_elem_of_cons. split; [congruence|done].
Qed.

Lemma replace_cr_dos b : replace cr [] (replace nl [cr; nl] b) = replace cr [] b.
Proof.
  induction b as [|x b IH]; [done|]. unfold replace in *. cbn [flat_map].
  destruct (decide (x = nl)) as [->|Hx].
  - cbn [app flat_map]. rewrite decide_True by done.
    rewrite decide_False by done. cbn [app]. by rewrite IH.
  - cbn [app flat_map]. by rewrite IH.
Qed.

Lemma woven_pieces lead p0 rest trail x :
  (x ∈ p0 ∨ ∃ gp, gp ∈ rest ∧ x ∈ gp.2) -> x ∈ woven lead p0 rest trail.
Proof.
  unfold woven. intros Hx. apply elem_of_app. right. apply elem_of_app.
  destruct Hx as [?|(gp & Hgp & Hx)]; [by left|right].
  apply elem_of_app. left. apply list_elem_of_In, in_flat_map.
  exists gp. split; [by apply list_elem_of_In|].
  unfold after_gap. apply list_elem_of_In, elem_of_app. by right.
Qed.

Lemma joined_pieces p0 rest x :
  x ∈ joined p0 rest -> x = nl ∨ x ∈ p0 ∨ ∃ gp, gp ∈ rest ∧ x ∈ gp.2.
Proof.
  unfold joined. intros [?|Hx]%elem_of_app; [by right; left|].
  apply list_elem_of_In, in_flat_map in Hx as (gp & Hgp & Hx).
  apply list_elem_of_In in Hgp, Hx.
  apply elem_of_cons in Hx as [->|Hx]; [by left|].
  apply elem_of_cons in Hx as [->|Hx]; [by left|].
  right. right. by exists gp.
Qed.

Lemma join2_cons p q ps : join2 (p :: q :: ps) = p ++ nl :: nl :: join2 (q :: ps).
Proof. reflexivity. Qed.

Lemma join2_joined p0 rest : join2 (p0 :: map snd rest) = joined p0 rest.
Proof.
  revert p0. induction rest as [|[g p] rest IH]; intros p0.
  - unfold joined. cbn. by rewrite app_nil_r.
  - cbn [map snd]. rewrite join2_cons, IH. reflexivity.
Qed.

Lemma joined_woven p0 rest :
  joined p0 rest = woven 0 p0 (map (fun gp => (2%nat, gp.2)) rest) 0.
Proof.
  unfold joined, woven. cbn [repeat app]. rewrite app_nil_r. f_equal.
  induction rest as [|[g p] rest IH]; [done|].
  cbn [map flat_map]. by rewrite IH.
Qed.

Lemma well_woven_shrunk p0 rest :
  well_woven p0 rest -> well_woven p0 (map (fun gp => (2%nat, gp.2)) rest).
Proof.
  intros [Hp0 Hrest]. split; [done|]. apply Forall_fmap.
  eapply Forall_impl; [exact Hrest|]. intros gp [_ Hp]. by split.
Qed.

(** The two shapes of the piped text, with its paragraphs. *)
Lemma paragraphs_cases b :
  (∃ k, replace cr [] b = repeat nl k ∧ paragraphs b = [[]]) ∨
  (∃ lead p0 rest trail,
     replace cr [] b = woven lead p0 rest trail ∧ well_woven p0 rest ∧
     paragraphs b = p0 :: map snd rest).
Proof.
  destruct (woven_exists (replace cr [] b))
    as [[k Hk]|(lead & p0 & rest & trail & Hb & Hw)].
  - left. exists k. split; [done|]. by apply paragraphs_blank with k.
  - right. exists lead, p0, rest, trail. split; [done|]. split; [done|].
    by apply paragraphs_woven with lead trail.
Qed.

Lemma paragraphs_clean b p : p ∈ paragraphs b -> cr ∉ p.
Proof.
  destruct (paragraphs_cases b)
    as [(k & _ & ->)|(lead & p0 & rest & trail & Hb & _ & ->)].
  - intros ->%list_elem_of_singleton. apply not_elem_of_nil.
  - intros Hp Hcr. apply (replace_cr_clean b). rewrite Hb.
    apply woven_pieces. apply elem_of_cons in Hp as [->|Hp]; [by left|].
    right. apply list_elem_of_fmap in Hp as (gp & -> & Hgp). by exists gp.
Qed.

(** *** Trimming, again *)

Lemma trim_left_repeat c i s : trim_left c (repeat c i ++ s) = trim_left c s.
Proof.
  induction i as [|i IH]; [done|]. cbn [repeat app trim_left].
  by rewrite decide_True.
Qed.

Lemma trim_right_repeat c j s : trim_right c (s ++ repeat c j) = trim_right c s.
Proof.
  unfold trim_right.
  by rewrite rev_app_distr, rev_repeat_nl, trim_left_repeat.
Qed.

Lemma trim_left_app c s r :
  trim_left c s ≠ [] -> trim_left c (s ++ r) = trim_left c s ++ r.
Proof.
  induction s as [|x s IH]; [done|]. cbn [app trim_left].
  destruct (decide (x = c)); [exact IH|done].
Qed.

Lemma trim_outer c i j s : trim c (repeat c i ++ s ++ repeat c j) = trim c s.
Proof.
  unfold trim. rewrite trim_left_repeat.
  destruct (trim_left c s) as [|x t] eqn:Ht.
  - destruct (trim_left_spec c s) as (k & Hs & _). rewrite Ht, app_nil_r in Hs.
    rewrite Hs, <- repeat_app.
    rewrite <- (app_nil_r (repeat c (k + j))), trim_left_run by done. done.
  - rewrite trim_left_app by (by rewrite Ht). rewrite Ht.
    apply trim_right_repeat.
Qed.

(** *** Reflowing *)

Lemma replace_spaced s : ∀ prev, spaced_newlines prev (replace nl [sp; nl] s).
Proof.
  induction s as [|x s IH]; intros prev; [done|].
  unfold replace in *. cbn [flat_map].
  destruct (decide (x = nl)) as [->|Hx]; cbn [app spaced_newlines].
  - split; [by intros [=]|]. split; [done|]. apply IH.
  - split; [done|]. apply IH.
Qed.

Lemma replace_keeps s : s `sublist_of` replace nl [sp; nl] s.
Proof.
  induction s as [|x s IH]; [done|]. unfold replace in *. cbn [flat_map].
  destruct (decide (x = nl)) as [->|Hx]; cbn [app].
  - by apply sublist_cons, sublist_skip.
  - by apply sublist_skip.
Qed.

End PipedText.


Lemma spaced_newlines_inv a : ∀ prev c,
  spaced_newlines prev (a ++ nl :: c) ->
  a = [] ∧ prev = Some sp ∨ ∃ a', a = a' ++ [sp].
Proof.
  induction a as [|x a IH]; intros prev c.
  - cbn. intros [Hp _]. left. split; [done|by apply Hp].
  - cbn [app spaced_newlines]. intros [_ Hs]. right.
    destruct (IH _ _ Hs) as [[-> [= ->]]|[a' ->]].
    + by exists [].
    + by exists (x :: a').
Qed.

(** X16. Carriage returns never reach the paragraphs, and line ends do
    not matter: a text with DOS line ends (every newline preceded by a
    carriage return) has the paragraphs of the text with Unix line
    ends. *)
Theorem paragraphs_line_ends b :
  (∀ p, p ∈ paragraphs b -> cr ∉ p) ∧
  paragraphs (replace nl [cr; nl] b) = paragraphs b ∧
  paragraphs (replace cr [] b) = paragraphs b.
Proof.
  split; [apply paragraphs_clean|]. unfold paragraphs.
  split; f_equal; f_equal; f_equal.
  - apply replace_cr_dos.
  - apply no_cr_replace, replace_cr_clean.
Qed.

Lemma paragraphs_line_ends_witness :
  cr ∉ Sample.str "Yours".
Proof.
  apply (proj1 (paragraphs_line_ends Sample.letter)).
  vm_compute. apply elem_of_cons. right. apply elem_of_cons. by left.
Defined.

(** X17. Newlines at the beginning and at the end of the piped text
    make no difference to its paragraphs. *)
Theorem paragraphs_outer_newlines i j b :
  paragraphs (repeat nl i ++ b ++ repeat nl j) = paragraphs b.
Proof.
  assert (Hrep : replace cr [] (repeat nl i ++ b ++ repeat nl j)
                 = repeat nl i ++ replace cr [] b ++ repeat nl j).
  { by rewrite !replace_app, !replace_cr_newlines. }
  destruct (paragraphs_cases b)
    as [(k & Hb & ->)|(lead & p0 & rest & trail & Hb & Hw & ->)].
  - apply paragraphs_blank with (i + (k + j))%nat.
    by rewrite Hrep, Hb, !repeat_app.
  - apply paragraphs_woven with (i + lead)%nat (trail + j)%nat; [|done].
    rewrite Hrep, Hb. unfold woven. rewrite !repeat_app.
    by rewrite <- !app_assoc.
Qed.

(** X18. The paragraphs are stable: joining them with one blank line
    between each two and cutting the result again gives the same
    paragraphs. *)
Theorem paragraphs_round_trip b :
  paragraphs (join2 (paragraphs b)) = paragraphs b.
Proof.
  destruct (paragraphs_cases b)
    as [(k & _ & ->)|(lead & p0 & rest & trail & Hb & Hw & Hp)].
  - reflexivity.
  - rewrite Hp, join2_joined.
    assert (Hcr : cr ∉ joined p0 rest).
    { intros [Hx|Hx]%joined_pieces; [discriminate Hx|].
      apply (replace_cr_clean b). rewrite Hb. by apply woven_pieces. }
    rewrite (paragraphs_woven (joined p0 rest) 0 p0
               (map (fun gp => (2%nat, gp.2)) rest) 0).
    + f_equal. rewrite map_map. by apply map_ext.
    + rewrite no_cr_replace by done. apply joined_woven.
    + by apply well_woven_shrunk.
Qed.

(** X19. In a reflowed paragraph every newline comes right after a
    space (the typist ends each line with the space bar), and nothing of
    the wrapped text is lost or reordered: the reflowed text is the
    wrapped text with those spaces inserted. *)
Theorem reflow_line_ends (wordWrap : text -> Z -> text) w p :
  (∀ a c, reflow wordWrap w p = a ++ nl :: c -> ∃ a', a = a' ++ [sp]) ∧
  wordWrap (trim sp p) w `sublist_of` reflow wordWrap w p ∧
  filter (fun x => x ≠ sp) (reflow wordWrap w p)
  = filter (fun x => x ≠ sp) (wordWrap (trim sp p) w).
Proof.
  unfold reflow. split; [|split].
  - intros a c Heq.
    pose proof (replace_spaced (wordWrap (trim sp p) w) None) as Hs.
    rewrite Heq in Hs. by apply spaced_newlines_inv in Hs as [[_ [=]]|?].
  - apply replace_keeps.
  - induction (wordWrap (trim sp p) w) as [|x s IH]; [done|].
    unfold replace in *. cbn [flat_map].
    destruct (decide (x = nl)) as [->|Hx]; cbn [app].
    + rewrite filter_cons_False by (by intros H; apply H).
      rewrite !filter_cons_True by done. by rewrite IH.
    + destruct (decide (x = sp)) as [->|Hsp].
      * rewrite !filter_cons_False by (by intros H; apply H). exact IH.
      * rewrite !filter_cons_True by done. by rewrite IH.
Qed.

Lemma reflow_line_ends_witness :
  ∃ a', Sample.str "Dear Sir, " = a' ++ [sp].
Proof.
  apply (proj1 (reflow_line_ends Sample.wordWrap 80
                  (Sample.str "Dear Sir," ++ nl :: Sample.str "thank you."))
           (Sample.str "Dear Sir, ") (Sample.str "thank you.")).
  vm_compute. reflexivity.
Defined.

(** X20. Spaces at the two ends of a paragraph are dropped before it is
    wrapped: indenting a paragraph or leaving spaces after it does not
    change its segment. *)
Theorem reflow_outer_spaces (wordWrap : text -> Z -> text) w i j p :
  reflow wordWrap w (repeat sp i ++ p ++ repeat sp j) = reflow wordWrap w p.
Proof. unfold reflow. by rewrite trim_outer. Qed.


(** ** Listing the themes *)

Lemma themes_of_app {Color} (a b : list (obs Color)) :
  themes_of (a ++ b) = themes_of a ++ themes_of b.
Proof. unfold themes_of. apply omap_app. Qed.

Lemma themes_of_on_screen {Color} (tr : list (obs Color)) :
  Forall on_screen tr -> themes_of tr = [].
Proof.
  induction 1 as [|o tr Ho _ IH]; [done|].
  destruct o; try done; exact IH.
Qed.

Lemma themes_of_leaving {Color} fl rs : themes_of (leaving (Color:=Color) fl rs) = [].
Proof.
  unfold leaving, themes_of. cbn [omap list_omap].
  induction (if csvMode fl then rs else []) as [|r l IH]; [done|exact IH].
Qed.

(** X21. The theme names are printed exactly when [-list] has the value
    [themes] (any other value is silently ignored); then that is all the
    program does, whatever else is on the command line and whatever the
    state of stdin, of the configuration file and of the terminal: the
    names of the whole table, exit status 0. *)
Theorem themes_listed {Color} (newTcellColor : string -> Color) themes
    wordWrap randomText io c e :
  let run := main newTcellColor themes wordWrap randomText io c e in
  (themes_of (trace run) ≠ [] ↔ listFlag (parse c) = "themes"%string) ∧
  (listFlag (parse c) = "themes"%string ->
   trace run = [ObsThemes (dom themes)] ∧ results run = [] ∧
   status run = Exited 0).
Proof.
  intros run. subst run.
  destruct (main_paths newTcellColor themes wordWrap randomText io c e)
    as [[Hl ->]|[(Hl & Hin & ->)|[(Hl & Hin & Hk & ->)|[(Hl & Hin & Hk & Hs & ->)
       |(Hl & Hin & Hk & Hs & content & cs & _ & ->)]]]]; try done.
  split; [|done]. split; [|done].
  destruct (loop_shape io (parse c) (configured (parse c) cs) content
              (start_timeout (timeout (parse c))) (starts e) [] 0%nat (events e))
    as (pre & Hpre & ->).
  rewrite themes_of_app, themes_of_on_screen by done.
  destruct (status _); by rewrite ?themes_of_leaving.
Qed.

Lemma themes_listed_witness :
  let run :=
    Sample.main
      {| opt_n := None; opt_w := None; opt_t := None; opt_noskip := false;
         opt_csv := true; opt_raw := false; opt_o := false;
         opt_theme := Some "neon"%string; opt_list := Some "themes"%string |}
      {| stdin := PipedError; ttrc := None; screen_ok := false;
         starts := []; events := [] |} in
  trace run = [ObsThemes (dom Sample.themes)] ∧ results run = [] ∧
  status run = Exited 0.
Proof.
  exact (proj2 (themes_listed (fun s : string => s) Sample.themes
                  Sample.wordWrap Sample.randomText Sample.io
                  {| opt_n := None; opt_w := None; opt_t := None;
                     opt_noskip := false; opt_csv := true; opt_raw := false;
                     opt_o := false; opt_theme := Some "neon"%string;
                     opt_list := Some "themes"%string |}
                  {| stdin := PipedError; ttrc := None; screen_ok := false;
                     starts := []; events := [] |}) eq_refl).
Defined.
